(** * WebRTC call signalling over a WAMP channel: model and properties

    A shallow embedding of [src/js/channel.js] (the [Channel] wrapper around a
    WAMP session, and the [WebRTC] / [WebRtcHandler] pair that negotiates a
    peer-to-peer call over it).  The browser functions that
    [src/js/compatible.js] selects are outside: the handler's calls on them
    are recorded, and where the code guards a call with try/catch the call
    may throw.

    Conventions.
    - A method of a JavaScript object becomes a computation in the monad
      [Eff S], where [S] is the mutable state the method can reach.  A
      computation yields a completion (normal return or a thrown exception),
      the final state, and the list of calls it made on objects that live
      outside the file (the browser, the WAMP session, the user's callbacks).
    - Text that goes over the wire is a sequence of UTF-16 code units,
      [jsstring]; names that are only passed around (topics, element ids,
      error messages, property names) are ordinary strings. *)

From Stdlib Require Import ZArith NArith Ascii String List.
From stdpp Require Import base option list gmap strings fin_maps.

Local Open Scope N_scope.

(** ** JavaScript strings on the wire *)

Definition jsstring : Type := list N.

(** The code units of an ASCII literal. *)
Definition codes (s : string) : jsstring :=
  map N_of_ascii (list_ascii_of_string s).

Definition jsstring_eqb (a b : jsstring) : bool := bool_decide (a = b).

(** ** JSON values

    What [JSON.parse] returns.  Numbers keep their literal text: the handler
    never computes with one.  An object keeps its members in source order; a
    later member of the same name shadows an earlier one, see [get_member]. *)

#[local] Set Warnings "-register-all".

Inductive JsValue : Type :=
  | JNull
  | JBool (b : bool)
  | JNumber (literal : jsstring)
  | JString (s : jsstring)
  | JArray (items : list JsValue)
  | JObject (members : list (jsstring * JsValue)).

(** *** Lexical analysis *)

Inductive Token : Type :=
  | TLBrace | TRBrace | TLBracket | TRBracket | TColon | TComma
  | TString (s : jsstring)
  | TNumber (literal : jsstring)
  | TTrue | TFalse | TNull.

Inductive NumPhase : Type :=
  | NMinus      (* after '-' : a digit must follow *)
  | NZero       (* after a leading 0 *)
  | NInt        (* inside the integer part *)
  | NFrac0      (* after '.' : a digit must follow *)
  | NFrac       (* inside the fraction *)
  | NExp0       (* after e or E : sign or digit *)
  | NExp1       (* after the exponent sign : a digit must follow *)
  | NExp.       (* inside the exponent *)

Inductive LexState : Type :=
  | LDefault
  | LStr (buf : jsstring)
  | LEsc (buf : jsstring)
  | LUni (buf : jsstring) (hex : list N)
  | LNum (phase : NumPhase) (buf : jsstring)
  | LWord (rest : jsstring) (tok : Token).

Definition is_ws (c : N) : bool :=
  (c =? 32) || (c =? 9) || (c =? 10) || (c =? 13).

Definition is_digit (c : N) : bool := (48 <=? c) && (c <=? 57).

Definition hex_value (c : N) : option N :=
  if (48 <=? c) && (c <=? 57) then Some (c - 48)
  else if (65 <=? c) && (c <=? 70) then Some (c - 55)
  else if (97 <=? c) && (c <=? 102) then Some (c - 87)
  else None.

(** First character of a token. *)
Definition lex_start (c : N) : option (list Token * LexState) :=
  if is_ws c then Some ([], LDefault)
  else if c =? 123 then Some ([TLBrace], LDefault)
  else if c =? 125 then Some ([TRBrace], LDefault)
  else if c =? 91 then Some ([TLBracket], LDefault)
  else if c =? 93 then Some ([TRBracket], LDefault)
  else if c =? 58 then Some ([TColon], LDefault)
  else if c =? 44 then Some ([TComma], LDefault)
  else if c =? 34 then Some ([], LStr [])
  else if c =? 45 then Some ([], LNum NMinus [c])
  else if c =? 48 then Some ([], LNum NZero [c])
  else if is_digit c then Some ([], LNum NInt [c])
  else if c =? 116 then Some ([], LWord (codes "rue") TTrue)
  else if c =? 102 then Some ([], LWord (codes "alse") TFalse)
  else if c =? 110 then Some ([], LWord (codes "ull") TNull)
  else None.

(** A number ends in front of [c]: emit it, then start over at [c]. *)
Definition lex_number_end (buf : jsstring) (c : N)
  : option (list Token * LexState) :=
  match lex_start c with
  | Some (toks, st) => Some (TNumber buf :: toks, st)
  | None => None
  end.

Definition is_exp_mark (c : N) : bool := (c =? 101) || (c =? 69).

Definition lex_number (phase : NumPhase) (buf : jsstring) (c : N)
  : option (list Token * LexState) :=
  let more p := Some ([], LNum p (buf ++ [c])) in
  match phase with
  | NMinus =>
      if c =? 48 then more NZero else if is_digit c then more NInt else None
  | NZero =>
      if c =? 46 then more NFrac0
      else if is_exp_mark c then more NExp0
      else lex_number_end buf c
  | NInt =>
      if is_digit c then more NInt
      else if c =? 46 then more NFrac0
      else if is_exp_mark c then more NExp0
      else lex_number_end buf c
  | NFrac0 => if is_digit c then more NFrac else None
  | NFrac =>
      if is_digit c then more NFrac
      else if is_exp_mark c then more NExp0
      else lex_number_end buf c
  | NExp0 =>
      if (c =? 43) || (c =? 45) then more NExp1
      else if is_digit c then more NExp
      else None
  | NExp1 => if is_digit c then more NExp else None
  | NExp => if is_digit c then more NExp else lex_number_end buf c
  end.

(** The character after a backslash. *)
Definition lex_escape (buf : jsstring) (c : N) : option (list Token * LexState) :=
  let put d := Some ([], LStr (buf ++ [d])) in
  if (c =? 34) || (c =? 92) || (c =? 47) then put c
  else if c =? 98 then put 8
  else if c =? 102 then put 12
  else if c =? 110 then put 10
  else if c =? 114 then put 13
  else if c =? 116 then put 9
  else if c =? 117 then Some ([], LUni buf [])
  else None.

Definition lex_step (st : LexState) (c : N) : option (list Token * LexState) :=
  match st with
  | LDefault => lex_start c
  | LStr buf =>
      if c =? 34 then Some ([TString buf], LDefault)
      else if c =? 92 then Some ([], LEsc buf)
      else if c <? 32 then None
      else Some ([], LStr (buf ++ [c]))
  | LEsc buf => lex_escape buf c
  | LUni buf hex =>
      match hex_value c with
      | None => None
      | Some d =>
          match hex with
          | [a; b; e] => Some ([], LStr (buf ++ [((a * 16 + b) * 16 + e) * 16 + d]))
          | _ => Some ([], LUni buf (hex ++ [d]))
          end
      end
  | LNum phase buf => lex_number phase buf c
  | LWord rest tok =>
      match rest with
      | [] => None
      | e :: rest' =>
          if c =? e
          then match rest' with
               | [] => Some ([tok], LDefault)
               | _ => Some ([], LWord rest' tok)
               end
          else None
      end
  end.

(** End of input. *)
Definition lex_end (st : LexState) : option (list Token) :=
  match st with
  | LDefault => Some []
  | LNum (NZero | NInt | NFrac | NExp) buf => Some [TNumber buf]
  | _ => None
  end.

Fixpoint lex (st : LexState) (cs : jsstring) : option (list Token) :=
  match cs with
  | [] => lex_end st
  | c :: cs' =>
      match lex_step st c with
      | None => None
      | Some (toks, st') =>
          match lex st' cs' with
          | None => None
          | Some more => Some (toks ++ more)
          end
      end
  end.

(** *** Grammar *)

(** A container waiting for the value being read. *)
Inductive Frame : Type :=
  | FArray (items : list JsValue)
  | FObject (members : list (jsstring * JsValue)) (key : jsstring).

Inductive Mode : Type :=
  | MValue                      (* a value must follow *)
  | MArrayStart                 (* after '[' *)
  | MArrayNext (items : list JsValue)
  | MObjectStart                (* after '{' *)
  | MObjectKey (members : list (jsstring * JsValue))
  | MObjectColon (members : list (jsstring * JsValue)) (key : jsstring)
  | MObjectNext (members : list (jsstring * JsValue))
  | MDone (v : JsValue).

(** A value is complete: hand it to the innermost open container. *)
Definition complete (v : JsValue) (stack : list Frame) : list Frame * Mode :=
  match stack with
  | [] => ([], MDone v)
  | FArray items :: stack' => (stack', MArrayNext (items ++ [v]))
  | FObject members key :: stack' => (stack', MObjectNext (members ++ [(key, v)]))
  end.

Definition parse_value (stack : list Frame) (t : Token)
  : option (list Frame * Mode) :=
  match t with
  | TString s => Some (complete (JString s) stack)
  | TNumber l => Some (complete (JNumber l) stack)
  | TTrue => Some (complete (JBool true) stack)
  | TFalse => Some (complete (JBool false) stack)
  | TNull => Some (complete JNull stack)
  | TLBracket => Some (stack, MArrayStart)
  | TLBrace => Some (stack, MObjectStart)
  | _ => None
  end.

Definition parse_step (stack : list Frame) (mode : Mode) (t : Token)
  : option (list Frame * Mode) :=
  match mode, t with
  | MValue, _ => parse_value stack t
  | MArrayStart, TRBracket => Some (complete (JArray []) stack)
  | MArrayStart, _ => parse_value (FArray [] :: stack) t
  | MArrayNext items, TComma => Some (FArray items :: stack, MValue)
  | MArrayNext items, TRBracket => Some (complete (JArray items) stack)
  | MObjectStart, TRBrace => Some (complete (JObject []) stack)
  | MObjectStart, TString k => Some (stack, MObjectColon [] k)
  | MObjectKey members, TString k => Some (stack, MObjectColon members k)
  | MObjectColon members k, TColon => Some (FObject members k :: stack, MValue)
  | MObjectNext members, TComma => Some (stack, MObjectKey members)
  | MObjectNext members, TRBrace => Some (complete (JObject members) stack)
  | _, _ => None
  end.

Fixpoint parse_tokens (stack : list Frame) (mode : Mode) (ts : list Token)
  : option JsValue :=
  match ts with
  | [] => match mode with MDone v => Some v | _ => None end
  | t :: ts' =>
      match parse_step stack mode t with
      | None => None
      | Some (stack', mode') => parse_tokens stack' mode' ts'
      end
  end.

(** [JSON.parse]: [None] stands for the [SyntaxError] it throws. *)
Definition JSON_parse (text : jsstring) : option JsValue :=
  match lex LDefault text with
  | None => None
  | Some ts => parse_tokens [] MValue ts
  end.

(** *** [JSON.stringify] *)

Definition hex_digit (d : N) : N := if d <? 10 then 48 + d else 87 + d.

Definition quote_unit (c : N) : jsstring :=
  if c =? 34 then [92; 34]
  else if c =? 92 then [92; 92]
  else if c =? 8 then [92; 98]
  else if c =? 12 then [92; 102]
  else if c =? 10 then [92; 110]
  else if c =? 13 then [92; 114]
  else if c =? 9 then [92; 116]
  else if c <? 32 then [92; 117; 48; 48; hex_digit (c / 16); hex_digit (c mod 16)]
  else [c].

Definition quote (s : jsstring) : jsstring :=
  [34] ++ concat (map quote_unit s) ++ [34].

Fixpoint join (sep : jsstring) (parts : list jsstring) : jsstring :=
  match parts with
  | [] => []
  | [p] => p
  | p :: ps => p ++ sep ++ join sep ps
  end.

Fixpoint JSON_stringify (v : JsValue) : jsstring :=
  match v with
  | JNull => codes "null"
  | JBool true => codes "true"
  | JBool false => codes "false"
  | JNumber l => l
  | JString s => quote s
  | JArray items => [91] ++ join [44] (map JSON_stringify items) ++ [93]
  | JObject members =>
      [123] ++
      join [44] (map (fun m => quote (fst m) ++ [58] ++ JSON_stringify (snd m))
                     members)
      ++ [125]
  end.

(** Reading a property of a parsed message: [None] is [undefined].  Only the
    members of an object are visible; the names the handler asks for (type,
    label, candidate) are not properties of strings, numbers, booleans or
    arrays. *)
Fixpoint last_member (name : jsstring) (members : list (jsstring * JsValue))
  : option JsValue :=
  match members with
  | [] => None
  | (k, v) :: rest =>
      match last_member name rest with
      | Some v' => Some v'
      | None => if jsstring_eqb k name then Some v else None
      end
  end.

Definition get_member (v : JsValue) (name : string) : option JsValue :=
  match v with
  | JObject members => last_member (codes name) members
  | _ => None
  end.

(** [x === "literal"] for a property that was read from a parsed message. *)
Definition is_string (x : option JsValue) (literal : string) : bool :=
  match x with
  | Some (JString s) => jsstring_eqb s (codes literal)
  | _ => false
  end.

Local Close Scope N_scope.

(** ** Objects outside the file

    Each is known to the model by a handle only; what the code does with it
    is recorded as an [Event]. *)

Definition Callback : Type := nat.          (* a function supplied by the user *)
Definition SignalingChannel : Type := nat.  (* the object in config.p2p_channel *)
Definition Element : Type := nat.           (* a DOM element *)
Definition Stream : Type := nat.            (* a MediaStream *)
Definition PeerConnection : Type := nat.    (* an RTCPeerConnection *)
Definition WampSession : Type := nat.       (* an AutobahnJS session *)
Definition loc : Type := positive.          (* a constraints object of the handler *)

(** [media_constraints_], built once by the handler and only handed to
    [getUserMedia]. *)
Record MediaConstraints : Type := {
  audio : bool;
  maxWidth : Z;
  maxHeight : Z;
  maxFrameRate : Z
}.

(** Values stored in a constraints dictionary or list.  [VObject] is a
    reference to some other object, compared by identity. *)
Inductive Val : Type :=
  | VUndefined
  | VNull
  | VBool (b : bool)
  | VNumber (n : Z)
  | VString (s : string)
  | VObject (id : positive).

Inductive Event : Type :=
  (* the error policy and the lifecycle callbacks *)
  | Alert (message : string)
  | OnError (f : Callback) (message : string)
  | OnReady (f : Callback)
  | OnConnected (f : Callback)
  | OnTerminated (f : Callback)
  (* config.p2p_channel *)
  | Subscribe (ch : SignalingChannel) (topic : option string)
  | Unsubscribe (ch : SignalingChannel) (topic : option string)
  | Publish (ch : SignalingChannel) (topic : option string) (message : jsstring)
  (* local media *)
  | GetUserMedia (constraints : MediaConstraints)
  | AttachMediaStream (element : Element) (stream : option Stream)
  | DetachMediaStream (element : Element)
  | StreamStop (stream : Stream)
  (* the peer connection *)
  | NewRTCPeerConnection (iceServers : list string) (constraints : loc)
                         (pc : PeerConnection)
  | NewRTCSessionDescription (init : JsValue)
  | NewRTCIceCandidate (sdpMLineIndex candidate : option JsValue)
  | SetRemoteDescription (pc : PeerConnection) (description : JsValue)
  | SetLocalDescription (pc : PeerConnection) (description : JsValue)
  | CreateAnswer (pc : PeerConnection) (constraints : loc)
  | CreateOffer (pc : PeerConnection) (constraints : loc)
  | AddIceCandidate (pc : PeerConnection) (sdpMLineIndex candidate : option JsValue)
  | AddStream (pc : PeerConnection) (stream : Stream)
  | Close (pc : PeerConnection)
  (* the WAMP session behind a Channel *)
  | SessionSubscribe (s : WampSession) (topic : string) (event_handler : Callback)
  | SessionUnsubscribe (s : WampSession) (topic : string)
  | SessionPublish (s : WampSession) (topic : string) (data : jsstring) (exclude_me : Val)
  | SessionCall (s : WampSession) (arguments : list jsstring)
  | SessionClose (s : WampSession).

(** ** Computations *)

(** [HostError] is whatever a browser function throws. *)
Inductive JsError : Type := TypeError | SyntaxError | HostError.

Inductive Completion (A : Type) : Type :=
  | Normal (a : A)
  | Throw (e : JsError).
Arguments Normal {A} a.
Arguments Throw {A} e.

Record Result (S A : Type) : Type := mkResult {
  completion : Completion A;
  final : S;
  calls : list Event
}.
Arguments mkResult {S A}.
Arguments completion {S A}.
Arguments final {S A}.
Arguments calls {S A}.

Definition Eff (S A : Type) : Type := S -> Result S A.

Definition eff_ret {S A} (a : A) : Eff S A := fun s => mkResult (Normal a) s [].

(** Sequencing: an exception skips the rest, and keeps the state and the
    calls made so far. *)
Definition eff_bind {S A B} (k : A -> Eff S B) (m : Eff S A) : Eff S B :=
  fun s =>
    match m s with
    | mkResult (Normal a) s' evs =>
        match k a s' with
        | mkResult c s'' evs' => mkResult c s'' (evs ++ evs')
        end
    | mkResult (Throw e) s' evs => mkResult (Throw e) s' evs
    end.

#[global] Instance Eff_ret S : MRet (Eff S) := @eff_ret S.
#[global] Instance Eff_bind S : MBind (Eff S) := @eff_bind S.

Definition throw {S A} (e : JsError) : Eff S A := fun s => mkResult (Throw e) s [].
Definition emit {S} (ev : Event) : Eff S unit := fun s => mkResult (Normal tt) s [ev].
Definition get {S} : Eff S S := fun s => mkResult (Normal s) s [].
Definition put {S} (s : S) : Eff S unit := fun _ => mkResult (Normal tt) s [].
Definition modify {S} (f : S -> S) : Eff S unit := fun s => mkResult (Normal tt) (f s) [].

(** [try { body } catch (e) { handler }] *)
Definition try_catch {S A} (body handler : Eff S A) : Eff S A :=
  fun s =>
    match body s with
    | mkResult (Normal a) s' evs => mkResult (Normal a) s' evs
    | mkResult (Throw _) s' evs =>
        match handler s' with
        | mkResult c s'' evs' => mkResult c s'' (evs ++ evs')
        end
    end.

(** Member access on a value that may be null or undefined. *)
Definition not_null {S A} (x : option A) : Eff S A :=
  match x with
  | Some a => mret a
  | None => throw TypeError
  end.

Definition when {S} (c : bool) (m : Eff S unit) : Eff S unit :=
  if c then m else mret tt.

(** Run a computation on a part of the state. *)
Definition zoom {S T A} (view : S -> T) (update : T -> S -> S) (m : Eff T A)
  : Eff S A :=
  fun s =>
    match m (view s) with
    | mkResult c t evs => mkResult c (update t s) evs
    end.

(** ** Channel

    The wrapper around a WAMP session.  [open] only hands two closures to
    [ab.connect]; what matters below is whether [session_] is set. *)

Module Channel.

Record Channel : Type := mkChannel {
  username_ : string;
  user_session_id_ : string;
  session_ : option WampSession
}.

(** The state a method of [Channel] can touch: the object itself and the
    global variable [exclude_me] that [publish] assigns ([None]: not yet
    created). *)
Record Heap : Type := mkHeap {
  this : Channel;
  global_exclude_me : option Val
}.

Definition set_session (s : option WampSession) (h : Heap) : Heap :=
  mkHeap (mkChannel (username_ (this h)) (user_session_id_ (this h)) s)
         (global_exclude_me h).

Definition new (username user_session_id : string) : Channel :=
  mkChannel username user_session_id None.

Definition close : Eff Heap unit :=
  h ← get;
  match session_ (this h) with
  | None => mret tt
  | Some s => emit (SessionClose s);; modify (set_session None)
  end.

Definition isOpen (c : Channel) : bool :=
  match session_ c with Some _ => true | None => false end.

Definition subscribe (topic : string) (event_handler : Callback) : Eff Heap unit :=
  h ← get;
  match session_ (this h) with
  | None => mret tt
  | Some s => emit (SessionSubscribe s topic event_handler)
  end.

Definition unsubscribe (topic : string) : Eff Heap unit :=
  h ← get;
  match session_ (this h) with
  | None => mret tt
  | Some s => emit (SessionUnsubscribe s topic)
  end.

(** The parameter is spelled [exlude_me], so the body reads and assigns the
    global [exclude_me]: undeclared or undefined it becomes [true], otherwise
    it keeps its value. *)
Definition publish (topic : string) (data : jsstring) (exlude_me : Val)
  : Eff Heap unit :=
  h ← get;
  match session_ (this h) with
  | None => mret tt
  | Some s =>
      let exclude_me :=
        match global_exclude_me h with
        | None | Some VUndefined => VBool true
        | Some v => v
        end in
      put (mkHeap (this h) (Some exclude_me));;
      emit (SessionPublish s topic data exclude_me)
  end.

(** What [call] returns. *)
Inductive Continuation : Type :=
  | Immediately (result : bool)   (* {then: function(callback) { callback(result); }} *)
  | FromSession (s : WampSession) (arguments : list jsstring).

Definition call (arguments : list jsstring) : Eff Heap Continuation :=
  h ← get;
  match session_ (this h) with
  | None => mret (Immediately false)
  | Some s => emit (SessionCall s arguments);; mret (FromSession s arguments)
  end.

(** [k.then(callback)] for the continuation built in this file; the one a
    session returns fires later, when the session decides. *)
Definition then_ {S} (k : Continuation) (callback : bool -> Eff S unit)
  : Eff S unit :=
  match k with
  | Immediately result => callback result
  | FromSession _ _ => mret tt
  end.

End Channel.

(** ** The WebRTC configuration and the error policy *)

(** A configuration as [webRtcDefaultConfig] builds it and a page then
    fills it in: every member is there and [ice_servers] is an array.  The
    constructor reads [webrtc_config.ice_servers.length] without a test, so
    on an object without that array it throws a TypeError before it does
    anything else; such objects are outside this type. *)
Record Config : Type := mkConfig {
  ice_servers : list string;
  p2p_channel : option SignalingChannel;
  p2p_topic : option string;
  remote_video_display : string;
  local_video_display : option string;
  video_width : Z;
  video_height : Z;
  video_frame_rate : Z;
  enable_audio : bool;
  onReady : option Callback;
  onConnected : option Callback;
  onTerminated : option Callback;
  onError : option Callback
}.

Definition webrtc_reportError {S} (config : Config) (message : string)
  : Eff S unit :=
  match onError config with
  | Some f => emit (OnError f message)
  | None => emit (Alert message)
  end.

Definition webRtcDefaultConfig : Config := {|
  ice_servers := [];
  p2p_channel := None;
  p2p_topic := None;
  remote_video_display := "remote_video";
  local_video_display := None;
  video_width := 320;
  video_height := 240;
  video_frame_rate := 10;
  enable_audio := true;
  onReady := None;
  onConnected := None;
  onTerminated := None;
  onError := None
|}.

Inductive WebRtcState : Type := INITIALIZED | CALLING | TERMINATED.

#[global] Instance WebRtcState_eq_dec : EqDecision WebRtcState.
Proof. solve_decision. Defined.

(** What the page and the browser answer when the handler asks. *)
Record Browser : Type := mkBrowser {
  (* document.getElementById *)
  getElementById : string -> option Element;
  (* calling getUserMedia throws (compatible.js left it null) *)
  getUserMedia_throws : bool;
  (* what new RTCPeerConnection(...) yields; None: it throws *)
  new_RTCPeerConnection : option PeerConnection
}.

(** ** Constraints objects

    The handler's constraints objects are read and written by
    [mergeConstraints] through references, so they live in a store.  A
    constraints object owns a [mandatory] dictionary and an [optional]
    array; either property may be missing ([None]). *)

Record Constraints : Type := mkConstraints {
  mandatory : option (gmap string Val);
  optional : option (list Val)
}.

Abbreviation Store := (gmap loc Constraints).

(** [a.concat(x)]: a new array; [x] is spread when it is an array and
    appended as one element ([undefined]) when it is missing. *)
Definition Array_concat (a : list Val) (x : option (list Val)) : list Val :=
  match x with
  | Some items => a ++ items
  | None => a ++ [VUndefined]
  end.

(** The names a [for (name in o)] loop visits. *)
Definition for_in_names (o : option (gmap string Val)) : list string :=
  match o with
  | Some m => (map_to_list m).*1
  | None => []
  end.

(** [for (x of xs) body(x)] *)
Fixpoint for_each {S A} (xs : list A) (body : A -> Eff S unit) : Eff S unit :=
  match xs with
  | [] => mret tt
  | x :: xs' => body x;; for_each xs' body
  end.

(** A reference that is not in the store holds no object: reading a
    property through it throws, as it does for [undefined]. *)
Definition deref (r : loc) : Eff Store Constraints :=
  s ← get; not_null (s !! r).

(** [merged.mandatory[name] = constraints_2.mandatory[name]] *)
Definition assign_mandatory (merged constraints_2 : loc) (name : string)
  : Eff Store unit :=
  target ← deref merged;
  into ← not_null (mandatory target);
  source ← deref constraints_2;
  from ← not_null (mandatory source);
  modify (insert merged
            (mkConstraints (Some (<[name := default VUndefined (from !! name)]> into))
                           (optional target))).

Definition mergeConstraints (constraints_1 constraints_2 : loc) : Eff Store loc :=
  let merged := constraints_1 in
  source ← deref constraints_2;
  for_each (for_in_names (mandatory source))
           (assign_mandatory merged constraints_2);;
  target ← deref merged;
  own ← not_null (optional target);
  source ← deref constraints_2;
  let _discarded := Array_concat own (optional source) in
  mret merged.

(** What the loop of [mergeConstraints] computes on the target dictionary. *)
Definition overwrite (from : gmap string Val) (names : list string)
                     (into : gmap string Val) : gmap string Val :=
  foldl (fun acc name => <[name := default VUndefined (from !! name)]> acc)
        into names.

(** ** WebRtcHandler *)

Module WebRtcHandler.

Record WebRtcHandler : Type := mkHandler {
  webrtc_config_ : Config;
  p2p_channel_ : option SignalingChannel;
  p2p_subscribed_ : bool;
  p2p_connection_ : option PeerConnection;
  remote_video_display_ : option Element;
  local_video_display_ : option Element;
  sdp_constraints_ : loc;
  p2p_config_ : list string;
  p2p_constraints_ : loc;
  offer_constraints_ : loc;
  media_constraints_ : MediaConstraints;
  do_call_ : bool;
  local_stream_ : option Stream
}.

(** The handler together with the constraints objects it created. *)
Record Heap : Type := mkHeap {
  store : Store;
  this : WebRtcHandler
}.

Definition self : Eff Heap WebRtcHandler := h ← get; mret (this h).

Definition set_store (s : Store) (h : Heap) : Heap := mkHeap s (this h).

Definition set_p2p_subscribed_ (v : bool) : Eff Heap unit :=
  modify (fun h => let t := this h in
    mkHeap (store h)
      (mkHandler (webrtc_config_ t) (p2p_channel_ t) v (p2p_connection_ t)
         (remote_video_display_ t) (local_video_display_ t) (sdp_constraints_ t)
         (p2p_config_ t) (p2p_constraints_ t)
         (offer_constraints_ t) (media_constraints_ t)
         (do_call_ t) (local_stream_ t))).

Definition set_p2p_connection_ (v : option PeerConnection) : Eff Heap unit :=
  modify (fun h => let t := this h in
    mkHeap (store h)
      (mkHandler (webrtc_config_ t) (p2p_channel_ t) (p2p_subscribed_ t) v
         (remote_video_display_ t) (local_video_display_ t) (sdp_constraints_ t)
         (p2p_config_ t) (p2p_constraints_ t)
         (offer_constraints_ t) (media_constraints_ t)
         (do_call_ t) (local_stream_ t))).

Definition set_remote_video_display_ (v : option Element) : Eff Heap unit :=
  modify (fun h => let t := this h in
    mkHeap (store h)
      (mkHandler (webrtc_config_ t) (p2p_channel_ t) (p2p_subscribed_ t)
         (p2p_connection_ t) v (local_video_display_ t) (sdp_constraints_ t)
         (p2p_config_ t) (p2p_constraints_ t)
         (offer_constraints_ t) (media_constraints_ t)
         (do_call_ t) (local_stream_ t))).

Definition set_local_video_display_ (v : option Element) : Eff Heap unit :=
  modify (fun h => let t := this h in
    mkHeap (store h)
      (mkHandler (webrtc_config_ t) (p2p_channel_ t) (p2p_subscribed_ t)
         (p2p_connection_ t) (remote_video_display_ t) v (sdp_constraints_ t)
         (p2p_config_ t) (p2p_constraints_ t)
         (offer_constraints_ t) (media_constraints_ t)
         (do_call_ t) (local_stream_ t))).

Definition set_do_call_ (v : bool) : Eff Heap unit :=
  modify (fun h => let t := this h in
    mkHeap (store h)
      (mkHandler (webrtc_config_ t) (p2p_channel_ t) (p2p_subscribed_ t)
         (p2p_connection_ t) (remote_video_display_ t) (local_video_display_ t)
         (sdp_constraints_ t) (p2p_config_ t) (p2p_constraints_ t)
         (offer_constraints_ t)
         (media_constraints_ t) v (local_stream_ t))).

Definition set_local_stream_ (v : option Stream) : Eff Heap unit :=
  modify (fun h => let t := this h in
    mkHeap (store h)
      (mkHandler (webrtc_config_ t) (p2p_channel_ t) (p2p_subscribed_ t)
         (p2p_connection_ t) (remote_video_display_ t) (local_video_display_ t)
         (sdp_constraints_ t) (p2p_config_ t) (p2p_constraints_ t)
         (offer_constraints_ t)
         (media_constraints_ t) (do_call_ t) v)).

(** The constructor.  Its three constraints objects are allocated at
    [sdp_ref], [offer_ref] and [p2p_ref]. *)
Definition sdp_ref : loc := 1%positive.
Definition offer_ref : loc := 2%positive.
Definition p2p_ref : loc := 3%positive.

(** The object [{DtlsSrtpKeyAgreement: true}], the one entry of the optional
    array of [p2p_constraints_]. *)
Definition DtlsSrtpKeyAgreement : Val := VObject 1.

(** The dictionary [{OfferToReceiveAudio: ..., OfferToReceiveVideo: true}]. *)
Definition sdp_mandatory (webrtc_config : Config) : gmap string Val :=
  <["OfferToReceiveVideo" := VBool true]>
    (<["OfferToReceiveAudio" := VBool (enable_audio webrtc_config)]> ∅).

Definition new (webrtc_config : Config) : Heap := {|
  store :=
    <[offer_ref := mkConstraints (Some ∅) (Some [])]>
      (<[sdp_ref := mkConstraints (Some (sdp_mandatory webrtc_config)) None]>
         (<[p2p_ref := mkConstraints None (Some [DtlsSrtpKeyAgreement])]> ∅));
  this := {|
    webrtc_config_ := webrtc_config;
    p2p_channel_ := p2p_channel webrtc_config;
    p2p_subscribed_ := false;
    p2p_connection_ := None;
    remote_video_display_ := None;
    local_video_display_ := None;
    sdp_constraints_ := sdp_ref;
    p2p_config_ := ice_servers webrtc_config;
    p2p_constraints_ := p2p_ref;
    offer_constraints_ := offer_ref;
    media_constraints_ := {|
      audio := enable_audio webrtc_config;
      maxWidth := video_width webrtc_config;
      maxHeight := video_height webrtc_config;
      maxFrameRate := video_frame_rate webrtc_config
    |};
    do_call_ := false;
    local_stream_ := None
  |}
|}.

(** The shims of compatible.js, on a page where they are installed.  The
    element may be [undefined], and then the assignment inside throws. *)
Definition attachMediaStream (element : option Element) (stream : option Stream)
  : Eff Heap unit :=
  el ← not_null element; emit (AttachMediaStream el stream).

Definition detachMediaStream (element : option Element) : Eff Heap unit :=
  el ← not_null element; emit (DetachMediaStream el).

Definition send (p2p_message : JsValue) : Eff Heap unit :=
  let message := JSON_stringify p2p_message in
  t ← self;
  ch ← not_null (p2p_channel_ t);
  emit (Publish ch (p2p_topic (webrtc_config_ t)) message).

Definition setLocalAndSend (session_description : JsValue) : Eff Heap unit :=
  t ← self;
  pc ← not_null (p2p_connection_ t);
  emit (SetLocalDescription pc session_description);;
  send session_description.

Definition addLocalStream : Eff Heap unit :=
  t ← self;
  match local_video_display_ t with
  | Some el => attachMediaStream (Some el) (local_stream_ t)
  | None => mret tt
  end.

Definition removeLocalStream : Eff Heap unit :=
  t ← self;
  match local_video_display_ t with
  | Some el => detachMediaStream (Some el)
  | None => mret tt
  end.

Definition doHangup : Eff Heap unit :=
  t ← self;
  match p2p_connection_ t with
  | Some pc => emit (Close pc);; set_p2p_connection_ None
  | None => mret tt
  end;;
  when (p2p_subscribed_ t)
    (ch ← not_null (p2p_channel_ t);
     emit (Unsubscribe ch (p2p_topic (webrtc_config_ t)));;
     set_p2p_subscribed_ false);;
  match local_stream_ t with
  | Some stream => removeLocalStream;; emit (StreamStop stream)
  | None => mret tt
  end;;
  match onTerminated (webrtc_config_ t) with
  | Some f => emit (OnTerminated f)
  | None => mret tt
  end.

Definition onRemoteHangup : Eff Heap unit := doHangup.

Definition hangup : Eff Heap unit :=
  send (JObject [(codes "type", JString (codes "bye"))]);;
  doHangup.

Definition doCall : Eff Heap unit :=
  t ← self;
  constraints ← zoom store set_store
                  (mergeConstraints (offer_constraints_ t) (sdp_constraints_ t));
  pc ← not_null (p2p_connection_ t);
  emit (CreateOffer pc constraints).

Definition createP2PConnection (b : Browser) : Eff Heap unit :=
  t ← self;
  try_catch
    (match new_RTCPeerConnection b with
     | Some pc =>
         emit (NewRTCPeerConnection (p2p_config_ t) (p2p_constraints_ t) pc);;
         set_p2p_connection_ (Some pc)
     | None => throw HostError
     end)
    (webrtc_reportError (webrtc_config_ t) "WebRTC P2P connection is not supported.";;
     set_p2p_connection_ None).

Definition onUserMediaSuccess (b : Browser) (stream : Stream) : Eff Heap unit :=
  set_local_stream_ (Some stream);;
  addLocalStream;;
  createP2PConnection b;;
  t ← self;
  match p2p_connection_ t with
  | None => mret tt
  | Some pc =>
      emit (AddStream pc stream);;
      when (do_call_ t) doCall;;
      match onReady (webrtc_config_ t) with
      | Some f => emit (OnReady f)
      | None => mret tt
      end
  end.

Definition onUserMediaError : Eff Heap unit :=
  t ← self;
  webrtc_reportError (webrtc_config_ t) "Failed to get access to local media.".

Definition onChannelMessage (topic : option string) (message : jsstring)
  : Eff Heap unit :=
  t ← self;
  match JSON_parse message with
  | None => throw SyntaxError
  | Some JNull => throw TypeError
  | Some p2p_message =>
      let type := get_member p2p_message "type" in
      if is_string type "offer" then
        pc ← not_null (p2p_connection_ t);
        emit (NewRTCSessionDescription p2p_message);;
        emit (SetRemoteDescription pc p2p_message);;
        t ← self;
        pc ← not_null (p2p_connection_ t);
        emit (CreateAnswer pc (sdp_constraints_ t))
      else if is_string type "answer" then
        pc ← not_null (p2p_connection_ t);
        emit (NewRTCSessionDescription p2p_message);;
        emit (SetRemoteDescription pc p2p_message)
      else if is_string type "candidate" then
        let label := get_member p2p_message "label" in
        let candidate := get_member p2p_message "candidate" in
        emit (NewRTCIceCandidate label candidate);;
        pc ← not_null (p2p_connection_ t);
        emit (AddIceCandidate pc label candidate)
      else if is_string type "bye" then
        onRemoteHangup
      else mret tt
  end.

Definition initialize (b : Browser) : Eff Heap unit :=
  t ← self;
  set_remote_video_display_
    (getElementById b (remote_video_display (webrtc_config_ t)));;
  match local_video_display (webrtc_config_ t) with
  | Some id => set_local_video_display_ (getElementById b id)
  | None => mret tt
  end;;
  ch ← not_null (p2p_channel_ t);
  emit (Subscribe ch (p2p_topic (webrtc_config_ t)));;
  set_p2p_subscribed_ true;;
  try_catch
    (if getUserMedia_throws b then throw TypeError
     else emit (GetUserMedia (media_constraints_ t)))
    (webrtc_reportError (webrtc_config_ t) "getUserMedia() is not supported.").

(** The listeners installed on the peer connection. *)
Record RTCIceCandidate : Type := mkCandidate {
  sdpMLineIndex : JsValue;
  sdpMid : JsValue;
  candidate : JsValue
}.

Definition onIceCandidate (event_candidate : option RTCIceCandidate)
  : Eff Heap unit :=
  match event_candidate with
  | Some c =>
      send (JObject [(codes "type", JString (codes "candidate"));
                     (codes "label", sdpMLineIndex c);
                     (codes "id", sdpMid c);
                     (codes "candidate", candidate c)])
  | None => mret tt
  end.

Definition onRemoteStreamAdded (event_stream : option Stream) : Eff Heap unit :=
  t ← self;
  match remote_video_display_ t with
  | Some el => attachMediaStream (Some el) event_stream
  | None => mret tt
  end;;
  match onConnected (webrtc_config_ t) with
  | Some f => emit (OnConnected f)
  | None => mret tt
  end.

(** The argument is [this.remote_video_display], a property the handler
    never sets. *)
Definition onRemoteStreamRemoved : Eff Heap unit :=
  t ← self;
  match remote_video_display_ t with
  | Some _ => detachMediaStream None
  | None => mret tt
  end.

Definition listen (b : Browser) : Eff Heap unit :=
  set_do_call_ false;; initialize b.

Definition call (b : Browser) : Eff Heap unit :=
  set_do_call_ true;; initialize b.

End WebRtcHandler.

(** ** WebRTC, the public API *)

Module WebRTC.

(** An instance either never got past the checks of the constructor, and
    then has neither [state_] nor [webrtc_handler_], or has both. *)
Inductive WebRTC : Type :=
  | Unusable
  | Usable (state_ : WebRtcState) (webrtc_handler_ : WebRtcHandler.Heap).

Definition state_of (w : WebRTC) : option WebRtcState :=
  match w with
  | Unusable => None
  | Usable st _ => Some st
  end.

Definition handler_of (w : WebRTC) : option WebRtcHandler.Heap :=
  match w with
  | Unusable => None
  | Usable _ h => Some h
  end.

(** [new WebRTC(webrtc_config)]: the instance and the calls made while
    constructing it. *)
Definition new (webrtc_config : Config) : Result WebRTC unit :=
  if bool_decide (ice_servers webrtc_config = []) then
    (webrtc_reportError webrtc_config "No ICE servers specified.") Unusable
  else if bool_decide (p2p_channel webrtc_config = None)
          || bool_decide (p2p_topic webrtc_config = None)
          || bool_decide (p2p_topic webrtc_config = Some EmptyString) then
    (webrtc_reportError webrtc_config "Invalid P2P specification.") Unusable
  else
    mkResult (Normal tt) (Usable INITIALIZED (WebRtcHandler.new webrtc_config)) [].

(** Set [state_], then run a method of the handler. *)
Definition delegate (next : WebRtcState) (m : Eff WebRtcHandler.Heap unit)
                    (h : WebRtcHandler.Heap) : Result WebRTC unit :=
  match m h with
  | mkResult c h' evs => mkResult c (Usable next h') evs
  end.

Definition listen (b : Browser) : Eff WebRTC unit :=
  fun w =>
    match w with
    | Unusable => mkResult (Normal tt) w []
    | Usable st h =>
        if bool_decide (st ≠ INITIALIZED) then mkResult (Normal tt) w []
        else delegate CALLING (WebRtcHandler.listen b) h
    end.

Definition call (b : Browser) : Eff WebRTC unit :=
  fun w =>
    match w with
    | Unusable => mkResult (Normal tt) w []
    | Usable st h =>
        if bool_decide (st ≠ INITIALIZED) then mkResult (Normal tt) w []
        else delegate CALLING (WebRtcHandler.call b) h
    end.

Definition hangup : Eff WebRTC unit :=
  fun w =>
    match w with
    | Unusable => mkResult (Normal tt) w []
    | Usable st h =>
        if bool_decide (st ≠ CALLING) then mkResult (Normal tt) w []
        else delegate TERMINATED WebRtcHandler.hangup h
    end.

(** The handler is reachable from outside the instance as well: the channel,
    the browser and the peer connection hold its bound methods. *)
Definition on_handler (m : Eff WebRtcHandler.Heap unit) : Eff WebRTC unit :=
  fun w =>
    match w with
    | Unusable => mkResult (Normal tt) w []
    | Usable st h => delegate st m h
    end.

End WebRTC.

(** ** Histories

    Everything that can happen to an instance: a call of the public API, or
    one of the handler's bound methods being invoked by the channel, by
    [getUserMedia] or by the peer connection.  Each takes place in its own
    turn of the event loop, so an exception ends that turn only. *)

Inductive Input : Type :=
  | Listen
  | Call
  | Hangup
  | ChannelMessage (topic : option string) (message : jsstring)
  | UserMediaSuccess (stream : Stream)
  | UserMediaError
  | DescriptionCreated (session_description : JsValue)
  | IceCandidate (candidate : option WebRtcHandler.RTCIceCandidate)
  | RemoteStreamAdded (stream : option Stream)
  | RemoteStreamRemoved.

Definition react (b : Browser) (i : Input) : Eff WebRTC.WebRTC unit :=
  match i with
  | Listen => WebRTC.listen b
  | Call => WebRTC.call b
  | Hangup => WebRTC.hangup
  | ChannelMessage topic message =>
      WebRTC.on_handler (WebRtcHandler.onChannelMessage topic message)
  | UserMediaSuccess stream =>
      WebRTC.on_handler (WebRtcHandler.onUserMediaSuccess b stream)
  | UserMediaError => WebRTC.on_handler WebRtcHandler.onUserMediaError
  | DescriptionCreated d => WebRTC.on_handler (WebRtcHandler.setLocalAndSend d)
  | IceCandidate c => WebRTC.on_handler (WebRtcHandler.onIceCandidate c)
  | RemoteStreamAdded s => WebRTC.on_handler (WebRtcHandler.onRemoteStreamAdded s)
  | RemoteStreamRemoved => WebRTC.on_handler WebRtcHandler.onRemoteStreamRemoved
  end.

(** The instance after a history, and every call made on the way. *)
Fixpoint run (history : list (Browser * Input)) (w : WebRTC.WebRTC)
  : WebRTC.WebRTC * list Event :=
  match history with
  | [] => (w, [])
  | (b, i) :: rest =>
      match react b i w with
      | mkResult _ w1 evs =>
          match run rest w1 with
          | (w', later) => (w', evs ++ later)
          end
      end
  end.

(** An instance as the program can have it: built by the constructor, then
    driven through some history. *)
Definition instance (w : WebRTC.WebRTC) : Prop :=
  ∃ config history, w = (run history (final (WebRTC.new config))).1.

(** Counting calls of one kind. *)
Definition count (p : Event -> bool) (evs : list Event) : nat :=
  length (List.filter p evs).

Definition is_publish (ev : Event) : bool :=
  match ev with Publish _ _ _ => true | _ => false end.
Definition is_close (ev : Event) : bool :=
  match ev with Close _ => true | _ => false end.
Definition is_unsubscribe (ev : Event) : bool :=
  match ev with Unsubscribe _ _ => true | _ => false end.
Definition is_stream_stop (ev : Event) : bool :=
  match ev with StreamStop _ => true | _ => false end.
Definition is_onTerminated (ev : Event) : bool :=
  match ev with OnTerminated _ => true | _ => false end.

(** [n] calls in a row. *)
Definition times {S} (n : nat) (m : Eff S unit) : Eff S unit :=
  for_each (replicate n tt) (fun _ => m).

Definition demo_config : Config := {|
  ice_servers := ["stun:stun.example.org"];
  p2p_channel := Some 7%nat;
  p2p_topic := Some "event:call";
  remote_video_display := "remote_video";
  local_video_display := Some "local_video";
  video_width := 320;
  video_height := 240;
  video_frame_rate := 10;
  enable_audio := true;
  onReady := Some 1%nat;
  onConnected := Some 2%nat;
  onTerminated := Some 3%nat;
  onError := Some 4%nat
|}.

Definition demo_browser : Browser := {|
  getElementById := fun id => if String.eqb id "remote_video" then Some 10%nat
                              else if String.eqb id "local_video" then Some 11%nat
                              else None;
  getUserMedia_throws := false;
  new_RTCPeerConnection := Some 20%nat
|}.

Definition bye_text : jsstring :=
  JSON_stringify (JObject [(codes "type", JString (codes "bye"))]).

Definition answer_text : jsstring :=
  JSON_stringify (JObject [(codes "type", JString (codes "answer"));
                           (codes "sdp", JString (codes "v=0"))]).

Definition candidate_text : jsstring :=
  JSON_stringify (JObject [(codes "type", JString (codes "candidate"));
                           (codes "label", JNumber (codes "0"));
                           (codes "id", JString (codes "audio"));
                           (codes "candidate", JString (codes "candidate:1 1 UDP"))]).

Definition ping_text : jsstring :=
  JSON_stringify (JObject [(codes "type", JString (codes "ping"))]).

(** ** What the constructor establishes

    The handler always has the channel it was given, and its two constraints
    objects stay where the constructor put them; the one handed to
    [createAnswer] is never written, the one that accumulates offers keeps
    both of its properties. *)
Definition handler_ok (h : WebRtcHandler.Heap) : Prop :=
  let t := WebRtcHandler.this h in
  let σ := WebRtcHandler.store h in
  is_Some (WebRtcHandler.p2p_channel_ t) /\
  WebRtcHandler.sdp_constraints_ t = WebRtcHandler.sdp_ref /\
  WebRtcHandler.offer_constraints_ t = WebRtcHandler.offer_ref /\
  σ !! WebRtcHandler.sdp_ref =
    Some (mkConstraints
            (Some (WebRtcHandler.sdp_mandatory (WebRtcHandler.webrtc_config_ t)))
            None) /\
  exists m o, σ !! WebRtcHandler.offer_ref = Some (mkConstraints (Some m) (Some o)).

(** A property of the handler, for an instance: it holds of the handler
    when there is one. *)
Definition lifted (P : WebRtcHandler.Heap -> Prop) (w : WebRTC.WebRTC) : Prop :=
  match w with
  | WebRTC.Unusable => True
  | WebRTC.Usable _ h => P h
  end.

Definition well_formed (w : WebRTC.WebRTC) : Prop := lifted handler_ok w.

(** Two states of a handler that agree on the constraints objects and on
    the fields that only the constructor assigns. *)
Definition same_core (h h' : WebRtcHandler.Heap) : Prop :=
  WebRtcHandler.store h' = WebRtcHandler.store h /\
  WebRtcHandler.webrtc_config_ (WebRtcHandler.this h')
    = WebRtcHandler.webrtc_config_ (WebRtcHandler.this h) /\
  WebRtcHandler.p2p_channel_ (WebRtcHandler.this h')
    = WebRtcHandler.p2p_channel_ (WebRtcHandler.this h) /\
  WebRtcHandler.sdp_constraints_ (WebRtcHandler.this h')
    = WebRtcHandler.sdp_constraints_ (WebRtcHandler.this h) /\
  WebRtcHandler.offer_constraints_ (WebRtcHandler.this h')
    = WebRtcHandler.offer_constraints_ (WebRtcHandler.this h).

(** The offer constraints hold what [doCall] merged into them. *)
Definition offer_merged (h : WebRtcHandler.Heap) : Prop :=
  exists m o,
    WebRtcHandler.store h !! WebRtcHandler.offer_ref
      = Some (mkConstraints (Some m) (Some o)) /\
    m !! "OfferToReceiveAudio"
      = Some (VBool (enable_audio
                       (WebRtcHandler.webrtc_config_ (WebRtcHandler.this h)))) /\
    m !! "OfferToReceiveVideo" = Some (VBool true).

(** A method keeps a property of the handler, however it ends. *)
Definition keeps {A} (P : WebRtcHandler.Heap -> Prop)
                 (m : Eff WebRtcHandler.Heap A) : Prop :=
  forall h, P h -> P (final (m h)).

(** The state machine of the public API as the specification draws it:
    INITIALIZED, then CALLING by listen or call, then TERMINATED by hangup.
    Nothing else moves the state, and an unusable instance has none. *)
Definition transition (i : Input) (st : option WebRtcState) : option WebRtcState :=
  match i, st with
  | (Listen | Call), Some INITIALIZED => Some CALLING
  | Hangup, Some CALLING => Some TERMINATED
  | _, _ => st
  end.

(** A parsed message whose type is one of the four the handler acts on. *)
Definition recognised (p2p_message : JsValue) : bool :=
  let type := get_member p2p_message "type" in
  is_string type "offer" || is_string type "answer"
  || is_string type "candidate" || is_string type "bye".

(** The order of the states; an unusable instance has none. *)
Definition rank (st : option WebRtcState) : nat :=
  match st with
  | None => 0
  | Some INITIALIZED => 1
  | Some CALLING => 2
  | Some TERMINATED => 3
  end.

(** Does this input take the instance into [CALLING]? *)
Definition enters_CALLING (b : Browser) (i : Input) (w : WebRTC.WebRTC) : bool :=
  negb (bool_decide (WebRTC.state_of w = Some CALLING)) &&
  bool_decide (WebRTC.state_of (final (react b i w)) = Some CALLING).

Fixpoint entries_into_CALLING (history : list (Browser * Input))
                              (w : WebRTC.WebRTC) : nat :=
  match history with
  | [] => 0
  | (b, i) :: rest =>
      (if enters_CALLING b i w then 1 else 0)
      + entries_into_CALLING rest (final (react b i w))
  end.

(** ** Vocabulary for the further properties *)

(** The one call the error policy makes. *)
Definition error_report (config : Config) (message : string) : Event :=
  match onError config with
  | Some f => OnError f message
  | None => Alert message
  end.

(** A configuration the constructor accepts. *)
Definition valid_config (config : Config) : Prop :=
  ice_servers config <> [] /\
  is_Some (p2p_channel config) /\
  exists topic, p2p_topic config = Some topic /\ topic <> EmptyString.

(** [h] with another value of [do_call_]. *)
Definition with_do_call_ (v : bool) (h : WebRtcHandler.Heap) : WebRtcHandler.Heap :=
  final (WebRtcHandler.set_do_call_ v h).

(** An offer, as a peer would publish it. *)
Definition offer_text : jsstring :=
  JSON_stringify (JObject [(codes "type", JString (codes "offer"));
                           (codes "sdp", JString (codes "v=0"))]).

(** A run of [publish] calls, each with its own topic, data and third
    argument. *)
Definition publish_each (requests : list (string * jsstring * Val))
  : Eff Channel.Heap unit :=
  for_each requests (fun q => Channel.publish q.1.1 q.1.2 q.2).

(** What [publish] passes to the session as [exclude_me]. *)
Definition effective_exclude_me (h : Channel.Heap) : Val :=
  match Channel.global_exclude_me h with
  | None | Some VUndefined => VBool true
  | Some v => v
  end.

(** ** Calls on the signalling channel *)

Definition is_subscribe (ev : Event) : bool :=
  match ev with Subscribe _ _ => true | _ => false end.

(** A call that does not go to the signalling channel. *)
Definition host_call (ev : Event) : Prop :=
  match ev with
  | Subscribe _ _ | Unsubscribe _ _ | Publish _ _ _ => False
  | _ => True
  end.

(** A call on a signalling channel goes to channel [ch] with topic [topic];
    any other call passes. *)
Definition confined (ch : option SignalingChannel) (topic : option string)
                    (ev : Event) : Prop :=
  match ev with
  | Subscribe c t | Unsubscribe c t | Publish c t _ => Some c = ch /\ t = topic
  | _ => True
  end.

(** The handler still has the configuration and the channel it was built
    with. *)
Definition configured (config : Config) (h : WebRtcHandler.Heap) : Prop :=
  WebRtcHandler.webrtc_config_ (WebRtcHandler.this h) = config /\
  WebRtcHandler.p2p_channel_ (WebRtcHandler.this h) = p2p_channel config.

(** A relation between the handler before a method, the calls the method
    makes and the handler after it; a method obeys it when every run of it
    is in the relation. *)
Definition obeys {A} (R : WebRtcHandler.Heap -> list Event -> WebRtcHandler.Heap -> Prop)
                 (m : Eff WebRtcHandler.Heap A) : Prop :=
  forall h, R h (calls (m h)) (final (m h)).

(** The handler stays configured and its calls on a channel are confined. *)
Definition stays_confined (config : Config)
    (h : WebRtcHandler.Heap) (evs : list Event) (h' : WebRtcHandler.Heap) : Prop :=
  configured config h ->
  configured config h' /\
  Forall (confined (p2p_channel config) (p2p_topic config)) evs.

(** The method does not subscribe, and it unsubscribes exactly when it
    turns the handler's subscription off. *)
Definition subscription_balance
    (h : WebRtcHandler.Heap) (evs : list Event) (h' : WebRtcHandler.Heap) : Prop :=
  is_Some (WebRtcHandler.p2p_channel_ (WebRtcHandler.this h)) ->
  WebRtcHandler.p2p_channel_ (WebRtcHandler.this h')
    = WebRtcHandler.p2p_channel_ (WebRtcHandler.this h) /\
  count is_subscribe evs = 0 /\
  count is_unsubscribe evs
    + Nat.b2n (WebRtcHandler.p2p_subscribed_ (WebRtcHandler.this h'))
    = Nat.b2n (WebRtcHandler.p2p_subscribed_ (WebRtcHandler.this h)).

(** The subscription flag of an instance; an unusable one has none. *)
Definition subscribed (w : WebRTC.WebRTC) : bool :=
  match w with
  | WebRTC.Unusable => false
  | WebRTC.Usable _ h => WebRtcHandler.p2p_subscribed_ (WebRtcHandler.this h)
  end.

(** One for an instance that has not been started yet. *)
Definition not_started (w : WebRTC.WebRTC) : nat :=
  match WebRTC.state_of w with
  | Some INITIALIZED => 1
  | _ => 0
  end.

(** The handler is there in good order and is subscribed only while the
    state is CALLING. *)
Definition in_step (w : WebRTC.WebRTC) : Prop :=
  well_formed w /\
  (WebRTC.state_of w <> Some CALLING -> subscribed w = false).

(** Unfolding the monad. *)
Ltac eff :=
  cbv [mbind mret Eff_bind Eff_ret eff_bind eff_ret throw emit get put modify
       try_catch not_null when zoom webrtc_reportError] in *;
  cbn [completion final calls] in *.

(** Hints for showing that a method keeps a property. *)
Create HintDb keeps.

(** Hints for showing that a method obeys a relation. *)
Create HintDb obeys.

(** * Properties *)

(** ** Channel *)

(** C9. On a channel whose session is not open, subscribe, unsubscribe and
    publish return normally, leave the channel as it was and make no call on
    any session; call returns the continuation built in the file, whose
    [then] invokes its callback with [false] at once. *)
Theorem closed_channel_is_inert
    (h : Channel.Heap) (topic : string) (event_handler : Callback)
    (data : jsstring) (exlude_me : Val) (arguments : list jsstring) :
  Channel.session_ (Channel.this h) = None ->
  Channel.subscribe topic event_handler h = mkResult (Normal tt) h [] /\
  Channel.unsubscribe topic h = mkResult (Normal tt) h [] /\
  Channel.publish topic data exlude_me h = mkResult (Normal tt) h [] /\
  Channel.call arguments h = mkResult (Normal (Channel.Immediately false)) h [] /\
  forall (S : Type) (callback : bool -> Eff S unit) (k : Channel.Continuation),
    completion (Channel.call arguments h) = Normal k ->
    Channel.then_ k callback = callback false.
Proof.
  intros Hclosed.
  unfold Channel.subscribe, Channel.unsubscribe, Channel.publish, Channel.call.
  eff. rewrite Hclosed. cbn.
  repeat split; try reflexivity.
  intros S callback k Hk. inversion Hk. reflexivity.
Qed.

Lemma closed_channel_is_inert_witness :
  let h := Channel.mkHeap (Channel.new "alice" "s1") None in
  Channel.session_ (Channel.this h) = None /\
  Channel.subscribe "event:call" 0 h = mkResult (Normal tt) h [] /\
  Channel.unsubscribe "event:call" h = mkResult (Normal tt) h [] /\
  Channel.publish "event:call" bye_text VUndefined h = mkResult (Normal tt) h [] /\
  Channel.call [codes "rpc:ping"] h
    = mkResult (Normal (Channel.Immediately false)) h [].
Proof.
  intros h. split; [reflexivity|].
  destruct (closed_channel_is_inert h "event:call" 0 bye_text VUndefined
              [codes "rpc:ping"] eq_refl)
    as (Hsubscribe & Hunsubscribe & Hpublish & Hcall & _).
  repeat split; assumption.
Defined.

(** ** Merging constraints *)

Section Merge.

Implicit Types (σ : Store) (m : gmap string Val) (names : list string).

Lemma overwrite_lookup (from : gmap string Val) names m (k : string) :
  overwrite from names m !! k =
    if bool_decide (k ∈ names) then Some (default VUndefined (from !! k))
    else m !! k.
Proof.
  revert m. induction names as [|n names IH]; intros m; simpl.
  - reflexivity.
  - rewrite IH. destruct (decide (k ∈ names)) as [Hin|Hout].
    + rewrite (bool_decide_eq_true_2 (k ∈ names)) by assumption.
      rewrite bool_decide_eq_true_2; [reflexivity | set_solver].
    + rewrite (bool_decide_eq_false_2 (k ∈ names)) by assumption.
      destruct (decide (k = n)) as [->|Hne].
      * rewrite lookup_insert_eq, bool_decide_eq_true_2; [reflexivity | by left].
      * rewrite lookup_insert_ne by congruence.
        rewrite bool_decide_eq_false_2; [reflexivity|].
        intros [?|?]%elem_of_cons; contradiction.
Qed.

Lemma overwrite_all (from m : gmap string Val) :
  overwrite from (map_to_list from).*1 m = from ∪ m.
Proof.
  apply map_eq. intros k. rewrite overwrite_lookup.
  destruct (from !! k) as [v|] eqn:Hk.
  - rewrite bool_decide_eq_true_2.
    + simpl. symmetry. apply lookup_union_Some_l. exact Hk.
    + apply list_elem_of_fmap. exists (k, v). split; [reflexivity|].
      apply elem_of_map_to_list. exact Hk.
  - rewrite bool_decide_eq_false_2.
    + symmetry. apply lookup_union_r. exact Hk.
    + intros Hin. apply list_elem_of_fmap in Hin as [[k' v] [-> Hin]].
      apply elem_of_map_to_list in Hin. simpl in Hk. congruence.
Qed.

Lemma for_each_cons {S A} (x : A) (xs : list A) (body : A -> Eff S unit)
    (s s' : S) (evs : list Event) :
  body x s = mkResult (Normal tt) s' evs ->
  for_each (x :: xs) body s =
    mkResult (completion (for_each xs body s')) (final (for_each xs body s'))
             (evs ++ calls (for_each xs body s')).
Proof.
  intros H. cbn [for_each]. eff. rewrite H.
  destruct (for_each xs body s'); reflexivity.
Qed.

Lemma for_each_throw {S A} (x : A) (xs : list A) (body : A -> Eff S unit)
    (s s' : S) (e : JsError) (evs : list Event) :
  body x s = mkResult (Throw e) s' evs ->
  for_each (x :: xs) body s = mkResult (Throw e) s' evs.
Proof. intros H. cbn [for_each]. eff. rewrite H. reflexivity. Qed.

Lemma assign_mandatory_stuck σ (a b : loc) (name : string) :
  (σ !! a = None \/ exists A, σ !! a = Some A /\ mandatory A = None) ->
  assign_mandatory a b name σ = mkResult (Throw TypeError) σ [].
Proof.
  intros Ha. unfold assign_mandatory, deref. eff.
  destruct Ha as [Ha | (A & Ha & HA)]; rewrite Ha; cbn; [reflexivity|].
  rewrite HA. reflexivity.
Qed.

Lemma assign_mandatory_eq σ (a b : loc) (name : string) A B into from :
  σ !! a = Some A ->
  mandatory A = Some into ->
  σ !! b = Some B ->
  mandatory B = Some from ->
  assign_mandatory a b name σ =
    mkResult (Normal tt)
      (<[a := mkConstraints
                (Some (<[name := default VUndefined (from !! name)]> into))
                (optional A)]> σ) [].
Proof.
  intros Ha HA Hb HB. unfold assign_mandatory, deref. eff.
  rewrite Ha. cbn. rewrite HA. cbn. rewrite Hb. cbn. rewrite HB. reflexivity.
Qed.

(** The loop when source and target are different objects. *)
Lemma merge_loop_distinct names σ (a b : loc) m o B mb :
  a ≠ b ->
  σ !! a = Some (mkConstraints (Some m) o) ->
  σ !! b = Some B ->
  mandatory B = Some mb ->
  for_each names (assign_mandatory a b) σ =
    mkResult (Normal tt)
      (match names with
       | [] => σ
       | _ => <[a := mkConstraints (Some (overwrite mb names m)) o]> σ
       end) [].
Proof.
  intros Hab. revert σ m.
  induction names as [|n names IH]; intros σ m Ha Hb Hmb; [reflexivity|].
  rewrite (for_each_cons _ _ _ _ _ _
             (assign_mandatory_eq σ a b n _ B m mb Ha eq_refl Hb Hmb)).
  cbn [optional].
  rewrite (IH _ (<[n := default VUndefined (mb !! n)]> m)); cycle 1.
  - apply lookup_insert_eq.
  - rewrite lookup_insert_ne by exact Hab. exact Hb.
  - exact Hmb.
  - cbn. destruct names; [reflexivity|].
    rewrite insert_insert_eq. reflexivity.
Qed.

(** The loop when both arguments are the same object: every assignment
    writes back the value it has just read. *)
Lemma merge_loop_same names σ (a : loc) m o :
  σ !! a = Some (mkConstraints (Some m) o) ->
  (forall k, k ∈ names -> is_Some (m !! k)) ->
  for_each names (assign_mandatory a a) σ = mkResult (Normal tt) σ [].
Proof.
  intros Ha Hnames.
  induction names as [|n names IH]; [reflexivity|].
  destruct (Hnames n) as [v Hv]; [set_solver|].
  rewrite (for_each_cons _ _ _ _ _ _
             (assign_mandatory_eq σ a a n _ _ m m Ha eq_refl Ha eq_refl)).
  cbn [optional]. rewrite Hv. cbn [default]. rewrite (insert_id m n v Hv).
  rewrite (insert_id σ a _ Ha).
  rewrite IH; [reflexivity|]. intros k Hk. apply Hnames. set_solver.
Qed.

(** [mergeConstraints] on a first argument that has a [mandatory]
    dictionary: the entries of the second are written into it, and the call
    returns the first argument, unless it has no [optional] array to call
    [concat] on. *)
Lemma mergeConstraints_with_mandatory σ (a b : loc) A B m :
  σ !! a = Some A ->
  σ !! b = Some B ->
  mandatory A = Some m ->
  mergeConstraints a b σ =
    mkResult
      (match optional A with Some _ => Normal a | None => Throw TypeError end)
      (<[a := mkConstraints (Some (default ∅ (mandatory B) ∪ m)) (optional A)]> σ)
      [].
Proof.
  intros Ha Hb Hm. destruct A as [mA o]. simpl in Hm. subst mA. cbn [optional].
  unfold mergeConstraints, deref. eff. rewrite Hb. cbn.
  destruct (decide (a = b)) as [<-|Hab].
  - assert (B = mkConstraints (Some m) o) as -> by congruence.
    cbn. rewrite (merge_loop_same _ σ a m o Ha).
    + cbn. repeat (rewrite Ha; cbn).
      rewrite (idemp_L (∪) m). rewrite (insert_id σ a _ Ha).
      destruct o; cbn; [rewrite Ha|]; reflexivity.
    + intros k Hk. apply list_elem_of_fmap in Hk as [[k' v] [-> Hk]].
      apply elem_of_map_to_list in Hk. eauto.
  - destruct B as [[mb|] oB]; cbn.
    + rewrite (merge_loop_distinct _ σ a b m o _ mb Hab Ha Hb eq_refl).
      cbn. destruct ((map_to_list mb).*1) eqn:Hnames.
      * repeat (first [rewrite Ha | rewrite Hb]; cbn).
        assert (mb = ∅) as ->.
        { apply map_to_list_empty_iff.
          destruct (map_to_list mb); [reflexivity|discriminate]. }
        rewrite (left_id_L ∅ (∪)). rewrite (insert_id σ a _ Ha).
        destruct o; cbn; [rewrite Hb|]; reflexivity.
      * rewrite <- Hnames. rewrite lookup_insert_eq. cbn.
        rewrite overwrite_all.
        destruct o; cbn; [|reflexivity].
        rewrite lookup_insert_ne by exact Hab. rewrite Hb. reflexivity.
    + repeat (first [rewrite Ha | rewrite Hb]; cbn).
      rewrite (left_id_L ∅ (∪)). rewrite (insert_id σ a _ Ha).
      destruct o; cbn; [rewrite Hb|]; reflexivity.
Qed.

(** [mergeConstraints] on a first argument that has both properties. *)
Lemma mergeConstraints_spec σ (a b : loc) A B m o :
  σ !! a = Some A ->
  σ !! b = Some B ->
  mandatory A = Some m ->
  optional A = Some o ->
  mergeConstraints a b σ =
    mkResult (Normal a)
      (<[a := mkConstraints (Some (default ∅ (mandatory B) ∪ m)) (Some o)]> σ) [].
Proof.
  intros Ha Hb Hm Ho.
  rewrite (mergeConstraints_with_mandatory σ a b A B m Ha Hb Hm), Ho.
  reflexivity.
Qed.

(** Without a second argument the loop header throws. *)
Lemma mergeConstraints_no_source σ (a b : loc) :
  σ !! b = None ->
  mergeConstraints a b σ = mkResult (Throw TypeError) σ [].
Proof. intros Hb. unfold mergeConstraints, deref. eff. rewrite Hb. reflexivity. Qed.

(** Without a dictionary to write into, the first assignment throws; when
    there is nothing to assign, the call gets as far as [concat]. *)
Lemma mergeConstraints_no_target σ (a b : loc) B :
  σ !! b = Some B ->
  (σ !! a = None \/ exists A, σ !! a = Some A /\ mandatory A = None) ->
  mergeConstraints a b σ =
    mkResult
      (match for_in_names (mandatory B), σ !! a ≫= optional with
       | [], Some _ => Normal a
       | _, _ => Throw TypeError
       end) σ [].
Proof.
  intros Hb Ha. unfold mergeConstraints, deref. eff. rewrite Hb. cbn.
  destruct (for_in_names (mandatory B)) as [|n names].
  - cbn [for_each]. eff. destruct Ha as [Ha | (A & Ha & _)]; rewrite Ha; cbn; [reflexivity|].
    destruct (optional A); cbn; [rewrite Hb|]; reflexivity.
  - rewrite (for_each_throw _ _ _ _ _ _ _ (assign_mandatory_stuck σ a b n Ha)).
    reflexivity.
Qed.

End Merge.

(** ** Invariants of the handler *)

(** [doCall] on a handler in good order: the offer constraints take over the
    entries of the SDP constraints, in the object they already were. *)
Lemma doCall_spec (h : WebRtcHandler.Heap) (m : gmap string Val) (o : list Val) :
  handler_ok h ->
  WebRtcHandler.store h !! WebRtcHandler.offer_ref
    = Some (mkConstraints (Some m) (Some o)) ->
  WebRtcHandler.doCall h =
    mkResult
      (match WebRtcHandler.p2p_connection_ (WebRtcHandler.this h) with
       | Some _ => Normal tt
       | None => Throw TypeError
       end)
      (WebRtcHandler.set_store
         (<[WebRtcHandler.offer_ref :=
              mkConstraints
                (Some (WebRtcHandler.sdp_mandatory
                         (WebRtcHandler.webrtc_config_ (WebRtcHandler.this h)) ∪ m))
                (Some o)]>
            (WebRtcHandler.store h)) h)
      (match WebRtcHandler.p2p_connection_ (WebRtcHandler.this h) with
       | Some pc => [CreateOffer pc WebRtcHandler.offer_ref]
       | None => []
       end).
Proof.
  intros (_ & Hsdp & Hoff & Hs & _) Ho.
  unfold WebRtcHandler.doCall, WebRtcHandler.self. eff. rewrite Hsdp, Hoff.
  rewrite (mergeConstraints_spec _ _ _ _ _ m o Ho Hs eq_refl eq_refl).
  cbn. destruct (WebRtcHandler.p2p_connection_ (WebRtcHandler.this h)); reflexivity.
Qed.

Section Invariant.

Import WebRtcHandler.

(** A property of the handler that depends on the constraints objects and on
    the fields set by the constructor only, and that [doCall] keeps. *)
Context (P : Heap -> Prop).
Hypothesis P_frame : forall h h', same_core h h' -> P h -> P h'.
Hypothesis P_doCall : keeps P doCall.

Lemma keeps_ret {A} (a : A) : keeps P (mret a).
Proof. intros h H. exact H. Qed.

Lemma keeps_throw {A} (e : JsError) : keeps P (@throw Heap A e).
Proof. intros h H. exact H. Qed.

Lemma keeps_emit (ev : Event) : keeps P (emit ev).
Proof. intros h H. exact H. Qed.

Lemma keeps_self : keeps P self.
Proof. intros h H. exact H. Qed.

Lemma keeps_not_null {A} (x : option A) : keeps P (not_null x).
Proof. intros h H. destruct x; exact H. Qed.

Lemma keeps_reportError (config : Config) (message : string) :
  keeps P (webrtc_reportError config message).
Proof. intros h H. unfold webrtc_reportError. destruct (onError config); exact H. Qed.

Lemma keeps_bind {A B} (m : Eff Heap A) (k : A -> Eff Heap B) :
  keeps P m -> (forall a, keeps P (k a)) -> keeps P (m ≫= k).
Proof.
  intros Hm Hk h H. specialize (Hm h H). eff.
  destruct (m h) as [[a|e] s' evs]; cbn in *.
  - specialize (Hk a s' Hm). destruct (k a s'); exact Hk.
  - exact Hm.
Qed.

Lemma keeps_try_catch {A} (body handler : Eff Heap A) :
  keeps P body -> keeps P handler -> keeps P (try_catch body handler).
Proof.
  intros Hb Hh h H. specialize (Hb h H). eff.
  destruct (body h) as [[a|e] s' evs]; cbn in *.
  - exact Hb.
  - specialize (Hh s' Hb). destruct (handler s'); exact Hh.
Qed.

Lemma keeps_when (c : bool) (m : Eff Heap unit) :
  keeps P m -> keeps P (when c m).
Proof. intros Hm. destruct c; [exact Hm | apply keeps_ret]. Qed.

Ltac setter :=
  intros [σ [cfg ch sub conn rvd lvd sdp pcfg pcon off media dc ls]];
  apply P_frame; repeat split.

Lemma keeps_set_p2p_subscribed_ v : keeps P (set_p2p_subscribed_ v).
Proof. setter. Qed.
Lemma keeps_set_p2p_connection_ v : keeps P (set_p2p_connection_ v).
Proof. setter. Qed.
Lemma keeps_set_remote_video_display_ v : keeps P (set_remote_video_display_ v).
Proof. setter. Qed.
Lemma keeps_set_local_video_display_ v : keeps P (set_local_video_display_ v).
Proof. setter. Qed.
Lemma keeps_set_do_call_ v : keeps P (set_do_call_ v).
Proof. setter. Qed.
Lemma keeps_set_local_stream_ v : keeps P (set_local_stream_ v).
Proof. setter. Qed.

Hint Resolve keeps_ret keeps_throw keeps_emit keeps_self keeps_not_null
  keeps_reportError keeps_set_p2p_subscribed_ keeps_set_p2p_connection_
  keeps_set_remote_video_display_ keeps_set_local_video_display_
  keeps_set_do_call_ keeps_set_local_stream_ : keeps.

Ltac keeps_step :=
  lazymatch goal with
  | |- keeps _ (_ ≫= _) => apply keeps_bind; [|intros ?]
  | |- keeps _ (try_catch _ _) => apply keeps_try_catch
  | |- keeps _ (when _ _) => apply keeps_when
  | |- keeps _ (match ?x with _ => _ end) => destruct x
  | |- keeps _ _ => solve [auto with keeps nocore]
  end.

Ltac keeps_auto := repeat keeps_step.

Lemma keeps_send v : keeps P (send v).
Proof. unfold send. keeps_auto. Qed.

Lemma keeps_doHangup : keeps P doHangup.
Proof. unfold doHangup, removeLocalStream, detachMediaStream. keeps_auto. Qed.

Lemma keeps_hangup : keeps P hangup.
Proof.
  unfold hangup. apply keeps_bind; [apply keeps_send | intros _; apply keeps_doHangup].
Qed.

Lemma keeps_setLocalAndSend d : keeps P (setLocalAndSend d).
Proof. unfold setLocalAndSend. keeps_auto; apply keeps_send. Qed.

Lemma keeps_addLocalStream : keeps P addLocalStream.
Proof. unfold addLocalStream, attachMediaStream. keeps_auto. Qed.

Lemma keeps_onUserMediaError : keeps P onUserMediaError.
Proof. unfold onUserMediaError. keeps_auto. Qed.

Lemma keeps_onIceCandidate c : keeps P (onIceCandidate c).
Proof. unfold onIceCandidate. destruct c; [apply keeps_send | apply keeps_ret]. Qed.

Lemma keeps_onRemoteStreamAdded s : keeps P (onRemoteStreamAdded s).
Proof. unfold onRemoteStreamAdded, attachMediaStream. keeps_auto. Qed.

Lemma keeps_onRemoteStreamRemoved : keeps P onRemoteStreamRemoved.
Proof. unfold onRemoteStreamRemoved, detachMediaStream. keeps_auto. Qed.

Lemma keeps_createP2PConnection b : keeps P (createP2PConnection b).
Proof. unfold createP2PConnection. keeps_auto. Qed.

Lemma keeps_initialize b : keeps P (initialize b).
Proof. unfold initialize. keeps_auto. Qed.

Lemma keeps_listen b : keeps P (listen b).
Proof. unfold listen. keeps_auto; apply keeps_initialize. Qed.

Lemma keeps_call b : keeps P (call b).
Proof. unfold call. keeps_auto; apply keeps_initialize. Qed.

Lemma keeps_onUserMediaSuccess b stream : keeps P (onUserMediaSuccess b stream).
Proof.
  unfold onUserMediaSuccess.
  keeps_auto;
    first [apply keeps_addLocalStream | apply keeps_createP2PConnection
          | apply P_doCall].
Qed.

Lemma keeps_onChannelMessage topic message :
  keeps P (onChannelMessage topic message).
Proof.
  unfold onChannelMessage, onRemoteHangup.
  apply keeps_bind; [apply keeps_self | intros t].
  destruct (JSON_parse message) as [v|]; [|apply keeps_throw].
  destruct v; try apply keeps_throw;
    repeat match goal with
           | |- keeps _ (if ?c then _ else _) => destruct c
           end;
    keeps_auto; apply keeps_doHangup.
Qed.

Lemma delegate_lifted next m h :
  keeps P m -> P h -> lifted P (final (WebRTC.delegate next m h)).
Proof.
  intros Hm Hh. unfold WebRTC.delegate. specialize (Hm h Hh).
  destruct (m h); exact Hm.
Qed.

Lemma react_lifted b i w : lifted P w -> lifted P (final (react b i w)).
Proof.
  intros Hw. destruct w as [|st h]; [destruct i; exact I|].
  destruct i; cbn [react WebRTC.listen WebRTC.call WebRTC.hangup WebRTC.on_handler];
    try case_bool_decide; try exact Hw;
    apply delegate_lifted; try exact Hw.
  - apply keeps_listen.
  - apply keeps_call.
  - apply keeps_hangup.
  - apply keeps_onChannelMessage.
  - apply keeps_onUserMediaSuccess.
  - apply keeps_onUserMediaError.
  - apply keeps_setLocalAndSend.
  - apply keeps_onIceCandidate.
  - apply keeps_onRemoteStreamAdded.
  - apply keeps_onRemoteStreamRemoved.
Qed.

Lemma run_lifted history w : lifted P w -> lifted P (run history w).1.
Proof.
  revert w. induction history as [|[b i] rest IH]; intros w Hw; [exact Hw|].
  cbn [run]. pose proof (react_lifted b i w Hw) as H1.
  destruct (react b i w) as [c w1 evs]. cbn in H1.
  specialize (IH w1 H1). destruct (run rest w1). exact IH.
Qed.

End Invariant.

Lemma handler_ok_frame h h' : same_core h h' -> handler_ok h -> handler_ok h'.
Proof.
  intros (Hs & Hcfg & Hch & Hsdp & Hoff) H. unfold handler_ok in *.
  rewrite Hs, Hcfg, Hch, Hsdp, Hoff. exact H.
Qed.

Lemma handler_ok_doCall : keeps handler_ok WebRtcHandler.doCall.
Proof.
  intros h H. destruct H as (Hch & Hsdp & Hoff & Hs & m & o & Ho).
  rewrite (doCall_spec h m o); [|repeat split; eauto | exact Ho].
  destruct h as [σ t]. unfold handler_ok, WebRtcHandler.set_store. cbn in *.
  do 3 (split; [assumption|]). split.
  - rewrite lookup_insert_ne by discriminate. exact Hs.
  - eexists _, _. apply lookup_insert_eq.
Qed.

Lemma new_handler_ok (config : Config) :
  is_Some (p2p_channel config) -> handler_ok (WebRtcHandler.new config).
Proof.
  intros Hch. unfold handler_ok. cbn.
  split; [exact Hch|]. do 2 (split; [reflexivity|]). split.
  - rewrite lookup_insert_ne by discriminate. apply lookup_insert_eq.
  - eexists _, _. apply lookup_insert_eq.
Qed.

Lemma new_well_formed (config : Config) : well_formed (final (WebRTC.new config)).
Proof.
  unfold WebRTC.new. repeat case_bool_decide; cbn;
    try (unfold webrtc_reportError; destruct (onError config); exact I).
  destruct (p2p_channel config) eqn:Hc; [|contradiction].
  cbn. apply new_handler_ok. rewrite Hc. eauto.
Qed.

(** Every instance is in good order. *)
Lemma instance_well_formed w : instance w -> well_formed w.
Proof.
  intros (config & history & ->).
  apply (run_lifted handler_ok handler_ok_frame handler_ok_doCall).
  apply new_well_formed.
Qed.

(** ** The public state machine *)

Example bye_text_is :
  bye_text = [123; 34; 116; 121; 112; 101; 34; 58; 34; 98; 121; 101; 34; 125]%N
  /\ JSON_parse bye_text = Some (JObject [(codes "type", JString (codes "bye"))]).
Proof. split; reflexivity. Qed.

Lemma hangup_CALLING h :
  WebRTC.hangup (WebRTC.Usable CALLING h) =
    WebRTC.delegate TERMINATED WebRtcHandler.hangup h.
Proof. reflexivity. Qed.

Lemma hangup_other w :
  WebRTC.state_of w <> Some CALLING ->
  WebRTC.hangup w = mkResult (Normal tt) w [].
Proof. destruct w as [|[] h]; intros H; try reflexivity. contradiction. Qed.

Lemma react_unusable b i :
  react b i WebRTC.Unusable = mkResult (Normal tt) WebRTC.Unusable [].
Proof. destruct i; reflexivity. Qed.

Lemma run_unusable history : run history WebRTC.Unusable = (WebRTC.Unusable, []).
Proof.
  induction history as [|[b i] rest IH]; [reflexivity|].
  cbn [run]. rewrite react_unusable, IH. reflexivity.
Qed.

(** [doHangup] publishes nothing. *)
Lemma doHangup_no_publish h :
  count is_publish (calls (WebRtcHandler.doHangup h)) = 0%nat.
Proof.
  destruct h as [σ [cfg ch sub conn rvd lvd sdp pcfg pcon off media dc ls]].
  unfold WebRtcHandler.doHangup, WebRtcHandler.removeLocalStream,
    WebRtcHandler.detachMediaStream, WebRtcHandler.self,
    WebRtcHandler.set_p2p_connection_, WebRtcHandler.set_p2p_subscribed_.
  eff. cbn.
  destruct conn, sub, ch, ls, lvd, (onTerminated cfg); reflexivity.
Qed.

(** [hangup] of the handler, once the channel is known. *)
Lemma handler_hangup_eq h ch :
  WebRtcHandler.p2p_channel_ (WebRtcHandler.this h) = Some ch ->
  WebRtcHandler.hangup h =
    mkResult (completion (WebRtcHandler.doHangup h))
             (final (WebRtcHandler.doHangup h))
             (Publish ch (p2p_topic (WebRtcHandler.webrtc_config_ (WebRtcHandler.this h)))
                      bye_text
              :: calls (WebRtcHandler.doHangup h)).
Proof.
  intros Hch. unfold WebRtcHandler.hangup, WebRtcHandler.send, WebRtcHandler.self.
  eff. rewrite Hch. cbn. destruct (WebRtcHandler.doHangup h). reflexivity.
Qed.

(** C1. On every instance, hangup publishes the Bye message, once, on the
    channel and topic of the configuration, and moves the state to
    TERMINATED, exactly when the state was CALLING; in every other state, and
    on an unusable instance, it makes no call and changes nothing. *)
Theorem hangup_sends_one_bye_iff_calling (w : WebRTC.WebRTC) :
  instance w ->
  let r := WebRTC.hangup w in
  (WebRTC.state_of w = Some CALLING ->
     WebRTC.state_of (final r) = Some TERMINATED /\
     count is_publish (calls r) = 1%nat /\
     forall h, WebRTC.handler_of w = Some h ->
       exists ch,
         WebRtcHandler.p2p_channel_ (WebRtcHandler.this h) = Some ch /\
         calls r =
           Publish ch
             (p2p_topic (WebRtcHandler.webrtc_config_ (WebRtcHandler.this h)))
             bye_text
           :: calls (WebRtcHandler.doHangup h)) /\
  (WebRTC.state_of w <> Some CALLING -> r = mkResult (Normal tt) w []) /\
  (count is_publish (calls r) = 1%nat /\
   WebRTC.state_of (final r) = Some TERMINATED
   <-> WebRTC.state_of w = Some CALLING).
Proof.
  intros Hw%instance_well_formed r.
  assert (Hother : WebRTC.state_of w <> Some CALLING -> r = mkResult (Normal tt) w []).
  { subst r. apply hangup_other. }
  assert (Hcalling : WebRTC.state_of w = Some CALLING ->
     WebRTC.state_of (final r) = Some TERMINATED /\
     count is_publish (calls r) = 1%nat /\
     forall h, WebRTC.handler_of w = Some h ->
       exists ch,
         WebRtcHandler.p2p_channel_ (WebRtcHandler.this h) = Some ch /\
         calls r =
           Publish ch
             (p2p_topic (WebRtcHandler.webrtc_config_ (WebRtcHandler.this h)))
             bye_text
           :: calls (WebRtcHandler.doHangup h)).
  { subst r. destruct w as [|st h]; [discriminate|].
    intros [= ->]. destruct Hw as ([ch Hch] & _).
    rewrite hangup_CALLING. unfold WebRTC.delegate.
    rewrite (handler_hangup_eq h ch Hch).
    cbn [final calls WebRTC.state_of WebRTC.handler_of].
    split; [reflexivity|]. split.
    - unfold count. cbn [List.filter is_publish length]. f_equal.
      apply doHangup_no_publish.
    - intros h' [= <-]. exists ch. split; [exact Hch | reflexivity]. }
  split; [exact Hcalling|]. split; [exact Hother|]. split.
  - intros [Hone Hterm].
    destruct (decide (WebRTC.state_of w = Some CALLING)) as [|Hne]; [assumption|].
    rewrite (Hother Hne) in Hone. discriminate.
  - intros H. destruct (Hcalling H) as (? & ? & _). split; assumption.
Qed.

Lemma hangup_sends_one_bye_iff_calling_witness :
  let w := (run [(demo_browser, Listen)] (final (WebRTC.new demo_config))).1 in
  instance w /\
  WebRTC.state_of w = Some CALLING /\
  WebRTC.state_of (final (WebRTC.hangup w)) = Some TERMINATED /\
  count is_publish (calls (WebRTC.hangup w)) = 1%nat.
Proof.
  intros w.
  assert (Hi : instance w) by (exists demo_config, [(demo_browser, Listen)]; reflexivity).
  split; [exact Hi|]. split; [reflexivity|].
  destruct (hangup_sends_one_bye_iff_calling w Hi) as (Hcalling & _).
  destruct (Hcalling eq_refl) as (Hterm & Hone & _).
  split; assumption.
Defined.

(** The state after an input is a function of the input and the state
    before: [react] refines [transition]. *)
Lemma state_of_delegate next m h :
  WebRTC.state_of (final (WebRTC.delegate next m h)) = Some next.
Proof. unfold WebRTC.delegate. destruct (m h). reflexivity. Qed.

Lemma react_refines_transition b i w :
  WebRTC.state_of (final (react b i w)) = transition i (WebRTC.state_of w).
Proof.
  destruct w as [|st h]; [destruct i; reflexivity|].
  destruct i, st; try reflexivity;
    cbn [react WebRTC.listen WebRTC.call WebRTC.hangup WebRTC.on_handler];
    apply state_of_delegate.
Qed.

Lemma transition_monotone i st : rank st <= rank (transition i st).
Proof. destruct i, st as [[]|]; cbn; lia. Qed.

Lemma run_cons b i rest w :
  (run ((b, i) :: rest) w).1 = (run rest (final (react b i w))).1.
Proof. cbn [run]. destruct (react b i w) as [c w1 evs]. cbn. destruct (run rest w1); reflexivity. Qed.

Lemma run_monotone history w :
  rank (WebRTC.state_of w) <= rank (WebRTC.state_of (run history w).1).
Proof.
  revert w. induction history as [|[b i] rest IH]; intros w; [cbn; lia|].
  rewrite run_cons. etransitivity; [|apply IH].
  rewrite react_refines_transition. apply transition_monotone.
Qed.

Lemma listen_INITIALIZED b h :
  WebRTC.listen b (WebRTC.Usable INITIALIZED h) =
    WebRTC.delegate CALLING (WebRtcHandler.listen b) h.
Proof. reflexivity. Qed.

Lemma call_INITIALIZED b h :
  WebRTC.call b (WebRTC.Usable INITIALIZED h) =
    WebRTC.delegate CALLING (WebRtcHandler.call b) h.
Proof. reflexivity. Qed.

Lemma listen_other b w :
  WebRTC.state_of w <> Some INITIALIZED ->
  WebRTC.listen b w = mkResult (Normal tt) w [].
Proof. destruct w as [|[] h]; intros H; try reflexivity. contradiction. Qed.

Lemma call_other b w :
  WebRTC.state_of w <> Some INITIALIZED ->
  WebRTC.call b w = mkResult (Normal tt) w [].
Proof. destruct w as [|[] h]; intros H; try reflexivity. contradiction. Qed.

Lemma entries_after_start history w :
  WebRTC.state_of w <> Some INITIALIZED -> entries_into_CALLING history w = 0%nat.
Proof.
  revert w. induction history as [|[b i] rest IH]; intros w Hw; [reflexivity|].
  cbn [entries_into_CALLING]. rewrite IH.
  - unfold enters_CALLING. rewrite react_refines_transition.
    destruct i, (WebRTC.state_of w) as [[]|]; try reflexivity; contradiction.
  - rewrite react_refines_transition.
    destruct i, (WebRTC.state_of w) as [[]|]; cbn; congruence.
Qed.

Lemma entries_from_start history w :
  WebRTC.state_of w = Some INITIALIZED ->
  entries_into_CALLING history w =
    if bool_decide (2 <= rank (WebRTC.state_of (run history w).1))%nat
    then 1%nat else 0%nat.
Proof.
  revert w. induction history as [|[b i] rest IH]; intros w Hw.
  - cbn. rewrite Hw. reflexivity.
  - cbn [entries_into_CALLING]. rewrite run_cons.
    pose proof (react_refines_transition b i w) as Hstep.
    unfold enters_CALLING. rewrite Hstep, Hw.
    assert (transition i (Some INITIALIZED) = Some CALLING \/
            transition i (Some INITIALIZED) = Some INITIALIZED) as [Ht|Ht]
      by (destruct i; auto).
    + rewrite Ht. rewrite entries_after_start by (rewrite Hstep, Hw, Ht; discriminate).
      pose proof (run_monotone rest (final (react b i w))) as Hm.
      rewrite Hstep, Hw, Ht in Hm. cbn in Hm.
      rewrite (bool_decide_eq_true_2 (2 <= _)) by exact Hm. reflexivity.
    + rewrite Ht. cbn. apply IH. rewrite Hstep, Hw, Ht. reflexivity.
Qed.

(** C2. listen and call move an instance to CALLING and run the handler's
    method exactly when the state was INITIALIZED: the outcome, the calls
    made and the handler afterwards are those of the handler's listen or
    call, which on a handler with its channel subscribes to the topic first
    and leaves the handler subscribed, as callee or as caller.  Otherwise
    nothing changes and nothing runs.  So the state only moves forward:
    CALLING is entered from INITIALIZED, by listen or call, at most once in
    a history (once when the history ends in CALLING or TERMINATED);
    TERMINATED is entered from CALLING, by hangup; and TERMINATED is never
    left. *)
Theorem listen_call_state_machine :
  (forall b h,
     WebRTC.listen b (WebRTC.Usable INITIALIZED h) =
       WebRTC.delegate CALLING (WebRtcHandler.listen b) h /\
     WebRTC.call b (WebRTC.Usable INITIALIZED h) =
       WebRTC.delegate CALLING (WebRtcHandler.call b) h /\
     WebRTC.state_of (final (WebRTC.listen b (WebRTC.Usable INITIALIZED h)))
       = Some CALLING /\
     WebRTC.state_of (final (WebRTC.call b (WebRTC.Usable INITIALIZED h)))
       = Some CALLING /\
     completion (WebRTC.listen b (WebRTC.Usable INITIALIZED h))
       = completion (WebRtcHandler.listen b h) /\
     calls (WebRTC.listen b (WebRTC.Usable INITIALIZED h))
       = calls (WebRtcHandler.listen b h) /\
     WebRTC.handler_of (final (WebRTC.listen b (WebRTC.Usable INITIALIZED h)))
       = Some (final (WebRtcHandler.listen b h)) /\
     completion (WebRTC.call b (WebRTC.Usable INITIALIZED h))
       = completion (WebRtcHandler.call b h) /\
     calls (WebRTC.call b (WebRTC.Usable INITIALIZED h))
       = calls (WebRtcHandler.call b h) /\
     WebRTC.handler_of (final (WebRTC.call b (WebRTC.Usable INITIALIZED h)))
       = Some (final (WebRtcHandler.call b h)) /\
     (forall ch,
        WebRtcHandler.p2p_channel_ (WebRtcHandler.this h) = Some ch ->
        let topic := p2p_topic (WebRtcHandler.webrtc_config_ (WebRtcHandler.this h)) in
        (exists ev h',
           calls (WebRTC.listen b (WebRTC.Usable INITIALIZED h))
             = [Subscribe ch topic; ev] /\
           WebRTC.handler_of (final (WebRTC.listen b (WebRTC.Usable INITIALIZED h)))
             = Some h' /\
           WebRtcHandler.p2p_subscribed_ (WebRtcHandler.this h') = true /\
           WebRtcHandler.do_call_ (WebRtcHandler.this h') = false) /\
        (exists ev h',
           calls (WebRTC.call b (WebRTC.Usable INITIALIZED h))
             = [Subscribe ch topic; ev] /\
           WebRTC.handler_of (final (WebRTC.call b (WebRTC.Usable INITIALIZED h)))
             = Some h' /\
           WebRtcHandler.p2p_subscribed_ (WebRtcHandler.this h') = true /\
           WebRtcHandler.do_call_ (WebRtcHandler.this h') = true))) /\
  (forall b w,
     WebRTC.state_of w <> Some INITIALIZED ->
     WebRTC.listen b w = mkResult (Normal tt) w [] /\
     WebRTC.call b w = mkResult (Normal tt) w []) /\
  (forall b i w,
     rank (WebRTC.state_of w) <= rank (WebRTC.state_of (final (react b i w)))) /\
  (forall history w,
     rank (WebRTC.state_of w) <= rank (WebRTC.state_of (run history w).1)) /\
  (forall b i w,
     WebRTC.state_of w <> Some CALLING ->
     WebRTC.state_of (final (react b i w)) = Some CALLING ->
     WebRTC.state_of w = Some INITIALIZED /\ (i = Listen \/ i = Call)) /\
  (forall config history,
     let w := final (WebRTC.new config) in
     entries_into_CALLING history w <= 1 /\
     (2 <= rank (WebRTC.state_of (run history w).1) ->
      entries_into_CALLING history w = 1)) /\
  (forall b i w,
     WebRTC.state_of w <> Some TERMINATED ->
     WebRTC.state_of (final (react b i w)) = Some TERMINATED ->
     WebRTC.state_of w = Some CALLING /\ i = Hangup) /\
  (forall history w,
     WebRTC.state_of w = Some TERMINATED ->
     WebRTC.state_of (run history w).1 = Some TERMINATED).
Proof.
  split.
  { intros b h. rewrite listen_INITIALIZED, call_INITIALIZED.
    rewrite !state_of_delegate.
    do 4 (split; [reflexivity|]).
    unfold WebRTC.delegate.
    split; [destruct (WebRtcHandler.listen b h); reflexivity|].
    split; [destruct (WebRtcHandler.listen b h); reflexivity|].
    split; [destruct (WebRtcHandler.listen b h); reflexivity|].
    split; [destruct (WebRtcHandler.call b h); reflexivity|].
    split; [destruct (WebRtcHandler.call b h); reflexivity|].
    split; [destruct (WebRtcHandler.call b h); reflexivity|].
    intros ch Hch.
    destruct h as [σ [cfg c sub conn rvd lvd sdp pcfg pcon off media dc ls]].
    cbn in Hch. subst c.
    unfold WebRtcHandler.listen, WebRtcHandler.call, WebRtcHandler.initialize,
      WebRtcHandler.self, WebRtcHandler.set_do_call_,
      WebRtcHandler.set_remote_video_display_,
      WebRtcHandler.set_local_video_display_, WebRtcHandler.set_p2p_subscribed_.
    eff. cbn.
    destruct (local_video_display cfg), (getUserMedia_throws b), (onError cfg);
      cbn; (split; eexists _, _; repeat split). }
  split.
  { intros b w Hw. split; [apply listen_other | apply call_other]; exact Hw. }
  split.
  { intros b i w. rewrite react_refines_transition. apply transition_monotone. }
  split.
  { apply run_monotone. }
  split.
  { intros b i w Hne. rewrite react_refines_transition.
    destruct i, (WebRTC.state_of w) as [[]|]; cbn; intros H;
      try discriminate; try contradiction; auto. }
  split.
  { intros config history w.
    destruct (decide (WebRTC.state_of w = Some INITIALIZED)) as [Hw|Hw].
    - rewrite (entries_from_start history w Hw). split.
      + case_bool_decide; lia.
      + intros H. rewrite bool_decide_eq_true_2 by exact H. reflexivity.
    - rewrite (entries_after_start history w Hw). split; [lia|].
      intros H. exfalso. subst w. unfold WebRTC.new in *.
      repeat case_bool_decide; cbn in *;
        try (unfold webrtc_reportError in *; destruct (onError config);
             cbn in *; rewrite run_unusable in H; cbn in H; lia).
      all: try congruence.
      all: destruct (_ || _); cbn in *;
        try (unfold webrtc_reportError in *; destruct (onError config);
             cbn in *; rewrite run_unusable in H; cbn in H; lia);
        congruence. }
  split.
  { intros b i w Hne. rewrite react_refines_transition.
    destruct i, (WebRTC.state_of w) as [[]|]; cbn; intros H;
      try discriminate; try contradiction; auto. }
  { intros history w Hw. pose proof (run_monotone history w) as Hm.
    rewrite Hw in Hm. destruct (WebRTC.state_of (run history w).1) as [[]|];
      cbn in Hm; try lia. reflexivity. }
Qed.

Lemma listen_call_state_machine_witness :
  let history := [(demo_browser, Call); (demo_browser, Listen);
                  (demo_browser, Hangup); (demo_browser, Call)] in
  let w := final (WebRTC.new demo_config) in
  2 <= rank (WebRTC.state_of (run history w).1) /\
  calls (WebRTC.call demo_browser w)
    = calls (WebRtcHandler.call demo_browser (WebRtcHandler.new demo_config)) /\
  (exists ev, calls (WebRTC.call demo_browser w)
              = [Subscribe 7 (Some "event:call"); ev]) /\
  entries_into_CALLING history w = 1 /\
  WebRTC.state_of (run history w).1 = Some TERMINATED.
Proof.
  intros history w.
  destruct listen_call_state_machine
    as (Hstart & _ & _ & _ & _ & Hentries & _ & Habsorbing).
  assert (Hrank : 2 <= rank (WebRTC.state_of (run history w).1))
    by (vm_compute; lia).
  split; [exact Hrank|].
  destruct (Hstart demo_browser (WebRtcHandler.new demo_config))
    as (_ & _ & _ & _ & _ & _ & _ & _ & Hcalls & _ & Hsub).
  split; [exact Hcalls|].
  split.
  { destruct (Hsub 7 eq_refl) as (_ & ev & h' & Hev & _). exists ev. exact Hev. }
  split.
  - apply (Hentries demo_config history). exact Hrank.
  - change (run history w).1
      with (run [(demo_browser, Call)]
              (run [(demo_browser, Call); (demo_browser, Listen);
                    (demo_browser, Hangup)] w).1).1.
    apply Habsorbing. reflexivity.
Defined.

(** ** Construction *)

(** C7. With an empty list of ICE servers the constructor reports
    "No ICE servers specified." through the error policy (onError when there
    is one, an alert otherwise) and nothing else; the instance has neither a
    state nor a handler, and whatever is called on it afterwards, by the page
    or by anyone else, returns at once: no call is made, so no callback
    fires, and the instance stays as it is. *)
Theorem no_ice_servers_unusable (config : Config) :
  ice_servers config = [] ->
  let r := WebRTC.new config in
  completion r = Normal tt /\
  calls r =
    [match onError config with
     | Some f => OnError f "No ICE servers specified."
     | None => Alert "No ICE servers specified."
     end] /\
  WebRTC.state_of (final r) = None /\
  WebRTC.handler_of (final r) = None /\
  (forall b i, react b i (final r) = mkResult (Normal tt) (final r) []) /\
  (forall history, run history (final r) = (final r, [])).
Proof.
  intros Hice r.
  assert (Hr : r = mkResult (Normal tt) WebRTC.Unusable
                 [match onError config with
                  | Some f => OnError f "No ICE servers specified."
                  | None => Alert "No ICE servers specified."
                  end]).
  { subst r. unfold WebRTC.new. rewrite bool_decide_eq_true_2 by exact Hice.
    unfold webrtc_reportError. destruct (onError config); reflexivity. }
  rewrite Hr. cbn [completion calls final].
  repeat split.
  - intros b i. apply react_unusable.
  - intros history. apply run_unusable.
Qed.

Lemma no_ice_servers_unusable_witness :
  ice_servers webRtcDefaultConfig = [] /\
  calls (WebRTC.new webRtcDefaultConfig) = [Alert "No ICE servers specified."] /\
  run [(demo_browser, Listen); (demo_browser, Call); (demo_browser, Hangup)]
      (final (WebRTC.new webRtcDefaultConfig))
    = (final (WebRTC.new webRtcDefaultConfig), []).
Proof.
  split; [reflexivity|].
  destruct (no_ice_servers_unusable webRtcDefaultConfig eq_refl)
    as (_ & Hcalls & _ & _ & _ & Hrun).
  split; [exact Hcalls | apply Hrun].
Defined.

(** ** Teardown *)

Lemma count_app p (a b : list Event) : count p (a ++ b) = count p a + count p b.
Proof. unfold count. rewrite List.filter_app, length_app. reflexivity. Qed.

Lemma count_repeat p (evs : list Event) n :
  count p (concat (replicate n evs)) = n * count p evs.
Proof.
  induction n as [|n IH]; [reflexivity|].
  cbn [replicate concat]. rewrite count_app, IH. lia.
Qed.

Lemma times_S {S} n (m : Eff S unit) : times (Datatypes.S n) m = (m;; times n m).
Proof. reflexivity. Qed.

(** Repeating a call that leaves the state where it found it. *)
Lemma times_fixed {S} n (m : Eff S unit) (s : S) (evs : list Event) :
  m s = mkResult (Normal tt) s evs ->
  times n m s = mkResult (Normal tt) s (concat (replicate n evs)).
Proof.
  intros Hm. induction n as [|n IH]; [reflexivity|].
  rewrite times_S. eff. rewrite Hm, IH. reflexivity.
Qed.

(** One call of [doHangup], and the call after it. *)
Lemma doHangup_then_again (h : WebRtcHandler.Heap) :
  is_Some (WebRtcHandler.p2p_channel_ (WebRtcHandler.this h)) ->
  let once := WebRtcHandler.doHangup h in
  let again := WebRtcHandler.doHangup (final once) in
  completion once = Normal tt /\
  again = mkResult (Normal tt) (final once) (calls again) /\
  count is_close (calls once) <= 1 /\
  count is_close (calls again) = 0 /\
  count is_unsubscribe (calls once) <= 1 /\
  count is_unsubscribe (calls again) = 0 /\
  count is_onTerminated (calls once) =
    match onTerminated (WebRtcHandler.webrtc_config_ (WebRtcHandler.this h)) with
    | Some _ => 1
    | None => 0
    end /\
  count is_onTerminated (calls again) = count is_onTerminated (calls once) /\
  count is_stream_stop (calls again) = count is_stream_stop (calls once).
Proof.
  destruct h as [σ [cfg ch sub conn rvd lvd sdp pcfg pcon off media dc ls]].
  intros [c Hc]. cbn in Hc. subst ch.
  destruct cfg as [ice pch top rv lv vw vh vf ea f1 f2 f3 f4].
  destruct conn, sub, ls, lvd, f3; vm_compute; repeat split; lia.
Qed.

(** C3, as the code has it.  However often [doHangup] is called in a row,
    the peer connection is closed and the topic unsubscribed by the first
    call only, and the handler is left as the first call left it; the
    onTerminated callback, when there is one, is invoked by every call. *)
Theorem doHangup_repeated (h : WebRtcHandler.Heap) (n : nat) :
  is_Some (WebRtcHandler.p2p_channel_ (WebRtcHandler.this h)) ->
  1 <= n ->
  let once := WebRtcHandler.doHangup h in
  let many := times n WebRtcHandler.doHangup h in
  completion many = Normal tt /\
  final many = final once /\
  count is_close (calls many) = count is_close (calls once) /\
  count is_close (calls once) <= 1 /\
  count is_unsubscribe (calls many) = count is_unsubscribe (calls once) /\
  count is_unsubscribe (calls once) <= 1 /\
  count is_onTerminated (calls many) = n * count is_onTerminated (calls once) /\
  count is_onTerminated (calls once) =
    match onTerminated (WebRtcHandler.webrtc_config_ (WebRtcHandler.this h)) with
    | Some _ => 1
    | None => 0
    end.
Proof.
  intros Hch Hn once many.
  destruct (doHangup_then_again h Hch)
    as (Hc & Hagain & Hcl & Hcl' & Hun & Hun' & Hterm & Hterm' & _).
  fold once in Hc, Hagain, Hcl, Hcl', Hun, Hun', Hterm, Hterm'.
  destruct n as [|n]; [lia|].
  assert (Hmany : many =
            mkResult (Normal tt) (final once)
              (calls once ++
               concat (replicate n (calls (WebRtcHandler.doHangup (final once)))))).
  { subst many. rewrite times_S. eff. fold once.
    destruct once as [c1 h1 evs1]. cbn in Hc. subst c1.
    cbn [final calls] in *. rewrite (times_fixed n _ h1 _ Hagain). reflexivity. }
  rewrite Hmany. cbn [completion final calls].
  rewrite !count_app, !count_repeat, Hcl', Hun', Hterm'.
  repeat split; try assumption; lia.
Qed.

Lemma doHangup_repeated_witness :
  let h := final (WebRtcHandler.onUserMediaSuccess demo_browser 30
                    (final (WebRtcHandler.listen demo_browser
                              (WebRtcHandler.new demo_config)))) in
  is_Some (WebRtcHandler.p2p_channel_ (WebRtcHandler.this h)) /\
  1 <= 3 /\
  count is_close (calls (times 3 WebRtcHandler.doHangup h)) = 1 /\
  count is_unsubscribe (calls (times 3 WebRtcHandler.doHangup h)) = 1 /\
  count is_onTerminated (calls (times 3 WebRtcHandler.doHangup h)) = 3.
Proof.
  intros h.
  assert (Hch : is_Some (WebRtcHandler.p2p_channel_ (WebRtcHandler.this h)))
    by (exists 7; reflexivity).
  assert (Hn : 1 <= 3) by lia.
  destruct (doHangup_repeated h 3 Hch Hn)
    as (_ & _ & Hclose & _ & Hunsub & _ & Hterm & _).
  split; [exact Hch|]. split; [exact Hn|].
  rewrite Hclose, Hunsub, Hterm. repeat split.
Defined.

(** Why C3 fails as written: after a call is set up, two calls of
    [doHangup] invoke onTerminated twice and stop the local stream twice, so
    they do not have the effects of one call. *)
Lemma doHangup_twice_differs :
  let h := final (WebRtcHandler.onUserMediaSuccess demo_browser 30
                    (final (WebRtcHandler.listen demo_browser
                              (WebRtcHandler.new demo_config)))) in
  calls (WebRtcHandler.doHangup h) =
    [Close 20; Unsubscribe 7 (Some "event:call"); DetachMediaStream 11;
     StreamStop 30; OnTerminated 3] /\
  calls (times 2 WebRtcHandler.doHangup h) =
    [Close 20; Unsubscribe 7 (Some "event:call"); DetachMediaStream 11;
     StreamStop 30; OnTerminated 3;
     DetachMediaStream 11; StreamStop 30; OnTerminated 3] /\
  count is_onTerminated (calls (times 2 WebRtcHandler.doHangup h)) = 2 /\
  count is_stream_stop (calls (times 2 WebRtcHandler.doHangup h)) = 2 /\
  ~ (count is_onTerminated (calls (times 2 WebRtcHandler.doHangup h)) <= 1) /\
  calls (times 2 WebRtcHandler.doHangup h) <> calls (WebRtcHandler.doHangup h).
Proof.
  intros h. vm_compute. repeat split; try lia. discriminate.
Qed.

(** ** Inbound messages *)

Lemma is_string_true x literal :
  is_string x literal = true -> x = Some (JString (codes literal)).
Proof.
  destruct x as [[]|]; cbn; try discriminate.
  unfold jsstring_eqb. intros H%bool_decide_eq_true. congruence.
Qed.

(** The dispatch, for a message that parsed to something other than null. *)
Lemma onChannelMessage_parsed topic message v h :
  JSON_parse message = Some v ->
  v <> JNull ->
  WebRtcHandler.onChannelMessage topic message h =
    (let t := WebRtcHandler.this h in
     let type := get_member v "type" in
     if is_string type "offer" then
       pc ← not_null (WebRtcHandler.p2p_connection_ t);
       emit (NewRTCSessionDescription v);;
       emit (SetRemoteDescription pc v);;
       t ← WebRtcHandler.self;
       pc ← not_null (WebRtcHandler.p2p_connection_ t);
       emit (CreateAnswer pc (WebRtcHandler.sdp_constraints_ t))
     else if is_string type "answer" then
       pc ← not_null (WebRtcHandler.p2p_connection_ t);
       emit (NewRTCSessionDescription v);;
       emit (SetRemoteDescription pc v)
     else if is_string type "candidate" then
       emit (NewRTCIceCandidate (get_member v "label") (get_member v "candidate"));;
       pc ← not_null (WebRtcHandler.p2p_connection_ t);
       emit (AddIceCandidate pc (get_member v "label") (get_member v "candidate"))
     else if is_string type "bye" then WebRtcHandler.onRemoteHangup
     else mret tt) h.
Proof.
  intros Hparse Hnull. unfold WebRtcHandler.onChannelMessage, WebRtcHandler.self.
  rewrite Hparse. destruct v; try contradiction; eff;
    match goal with |- match ?x with _ => _ end = _ => destruct x as [[] ? ?] end;
    cbn [app]; reflexivity.
Qed.

Lemma onChannelMessage_bye topic message v h :
  JSON_parse message = Some v ->
  is_string (get_member v "type") "bye" = true ->
  WebRtcHandler.onChannelMessage topic message h = WebRtcHandler.doHangup h.
Proof.
  intros Hparse Hbye.
  rewrite (onChannelMessage_parsed topic message v h Hparse)
    by (intros ->; discriminate).
  cbv zeta. rewrite (is_string_true _ _ Hbye). reflexivity.
Qed.

(** C4, what the code does.  While there is no peer connection, an Answer
    raises a TypeError before anything else happens, and a Candidate raises
    it after the candidate object has been built; the handler itself is left
    as it was and nothing is queued. *)
Theorem answer_or_candidate_without_connection
    (h : WebRtcHandler.Heap) (topic : option string) (message : jsstring)
    (v : JsValue) :
  WebRtcHandler.p2p_connection_ (WebRtcHandler.this h) = None ->
  JSON_parse message = Some v ->
  (is_string (get_member v "type") "answer" = true ->
   WebRtcHandler.onChannelMessage topic message h =
     mkResult (Throw TypeError) h []) /\
  (is_string (get_member v "type") "candidate" = true ->
   WebRtcHandler.onChannelMessage topic message h =
     mkResult (Throw TypeError) h
       [NewRTCIceCandidate (get_member v "label") (get_member v "candidate")]).
Proof.
  intros Hconn Hparse. split; intros Htype;
    (rewrite (onChannelMessage_parsed topic message v h Hparse)
       by (intros ->; discriminate));
    cbv zeta; rewrite (is_string_true _ _ Htype), Hconn; reflexivity.
Qed.

Lemma answer_or_candidate_without_connection_witness :
  let h := final (WebRtcHandler.listen demo_browser (WebRtcHandler.new demo_config)) in
  WebRtcHandler.p2p_connection_ (WebRtcHandler.this h) = None /\
  completion (WebRtcHandler.onChannelMessage (Some "event:call") answer_text h)
    = Throw TypeError /\
  completion (WebRtcHandler.onChannelMessage (Some "event:call") candidate_text h)
    = Throw TypeError.
Proof.
  intros h. split; [reflexivity|]. split.
  - destruct (answer_or_candidate_without_connection h (Some "event:call")
                answer_text _ eq_refl eq_refl) as [Hanswer _].
    rewrite (Hanswer eq_refl). reflexivity.
  - destruct (answer_or_candidate_without_connection h (Some "event:call")
                candidate_text _ eq_refl eq_refl) as [_ Hcandidate].
    rewrite (Hcandidate eq_refl). reflexivity.
Defined.

(** C5, as the code has it.  A message that parses to anything but null and
    carries none of the four types is dropped: normal return, no call, no
    change.  A message that does not parse makes [JSON.parse] throw, and the
    text null makes the read of its type throw; the exception leaves
    [onChannelMessage], and there too no call is made (so the error policy
    is not involved) and nothing changes. *)
Theorem unrecognised_or_malformed_message
    (h : WebRtcHandler.Heap) (topic : option string) (message : jsstring) :
  (forall v, JSON_parse message = Some v -> v <> JNull -> recognised v = false ->
     WebRtcHandler.onChannelMessage topic message h = mkResult (Normal tt) h []) /\
  (JSON_parse message = None ->
     WebRtcHandler.onChannelMessage topic message h =
       mkResult (Throw SyntaxError) h []) /\
  (JSON_parse message = Some JNull ->
     WebRtcHandler.onChannelMessage topic message h =
       mkResult (Throw TypeError) h []).
Proof.
  split; [|split].
  - intros v Hparse Hnull Hrec.
    rewrite (onChannelMessage_parsed topic message v h Hparse Hnull).
    unfold recognised in Hrec. cbv zeta in *.
    apply orb_false_elim in Hrec as [Hrec Hbye].
    apply orb_false_elim in Hrec as [Hrec Hcandidate].
    apply orb_false_elim in Hrec as [Hoffer Hanswer].
    rewrite Hoffer, Hanswer, Hcandidate, Hbye. reflexivity.
  - intros Hparse. unfold WebRtcHandler.onChannelMessage, WebRtcHandler.self.
    rewrite Hparse. reflexivity.
  - intros Hparse. unfold WebRtcHandler.onChannelMessage, WebRtcHandler.self.
    rewrite Hparse. reflexivity.
Qed.

Lemma unrecognised_or_malformed_message_witness :
  let h := WebRtcHandler.new demo_config in
  WebRtcHandler.onChannelMessage None ping_text h = mkResult (Normal tt) h [] /\
  WebRtcHandler.onChannelMessage None (codes "[1,2") h
    = mkResult (Throw SyntaxError) h [] /\
  WebRtcHandler.onChannelMessage None (codes "null") h
    = mkResult (Throw TypeError) h [].
Proof.
  intros h.
  split; [|split].
  - destruct (unrecognised_or_malformed_message h None ping_text) as (Hdrop & _).
    apply (Hdrop (JObject [(codes "type", JString (codes "ping"))]));
      [reflexivity | discriminate | reflexivity].
  - destruct (unrecognised_or_malformed_message h None (codes "[1,2"))
      as (_ & Hsyntax & _).
    apply Hsyntax. reflexivity.
  - destruct (unrecognised_or_malformed_message h None (codes "null"))
      as (_ & _ & Hnull).
    apply Hnull. reflexivity.
Defined.

(** Why C5 fails as written: a message that is not JSON is not ignored, the
    SyntaxError of [JSON.parse] comes out of [onChannelMessage]. *)
Lemma unparseable_message_throws :
  let h := WebRtcHandler.new demo_config in
  JSON_parse (codes "hello") = None /\
  completion (WebRtcHandler.onChannelMessage (Some "event:call") (codes "hello") h)
    = Throw SyntaxError /\
  completion (WebRtcHandler.onChannelMessage (Some "event:call") (codes "hello") h)
    <> Normal tt.
Proof. intros h. vm_compute. repeat split. discriminate. Qed.

(** What one call of [doHangup] leaves behind. *)
Lemma doHangup_effects (h : WebRtcHandler.Heap) :
  is_Some (WebRtcHandler.p2p_channel_ (WebRtcHandler.this h)) ->
  let r := WebRtcHandler.doHangup h in
  completion r = Normal tt /\
  WebRtcHandler.p2p_connection_ (WebRtcHandler.this (final r)) = None /\
  WebRtcHandler.p2p_subscribed_ (WebRtcHandler.this (final r)) = false /\
  (forall pc, WebRtcHandler.p2p_connection_ (WebRtcHandler.this h) = Some pc ->
     In (Close pc) (calls r)) /\
  (WebRtcHandler.p2p_subscribed_ (WebRtcHandler.this h) = true ->
     exists ch,
       WebRtcHandler.p2p_channel_ (WebRtcHandler.this h) = Some ch /\
       In (Unsubscribe ch
             (p2p_topic (WebRtcHandler.webrtc_config_ (WebRtcHandler.this h))))
          (calls r)) /\
  (forall s, WebRtcHandler.local_stream_ (WebRtcHandler.this h) = Some s ->
     In (StreamStop s) (calls r)).
Proof.
  destruct h as [σ [cfg ch sub conn rvd lvd sdp pcfg pcon off media dc ls]].
  intros [c Hc]. cbn in Hc. subst ch.
  unfold WebRtcHandler.doHangup, WebRtcHandler.removeLocalStream,
    WebRtcHandler.detachMediaStream, WebRtcHandler.self,
    WebRtcHandler.set_p2p_connection_, WebRtcHandler.set_p2p_subscribed_.
  eff. cbn.
  destruct conn, sub, ls, lvd, (onTerminated cfg); cbn;
    repeat split; try discriminate;
    try (intros ? [= <-]); try (intros _; exists c; split; [reflexivity|]);
    cbn; tauto.
Qed.

(** C8. A Bye from the peer runs [doHangup], nothing more and nothing less,
    whatever the public state is, and that state is not touched: an instance
    that was CALLING is still CALLING afterwards, with its peer connection
    closed and dropped, its topic unsubscribed and its local stream
    stopped. *)
Theorem remote_bye_keeps_public_state
    (w : WebRTC.WebRTC) (b : Browser) (topic : option string)
    (message : jsstring) (v : JsValue) :
  instance w ->
  JSON_parse message = Some v ->
  is_string (get_member v "type") "bye" = true ->
  let r := react b (ChannelMessage topic message) w in
  r = WebRTC.on_handler WebRtcHandler.doHangup w /\
  WebRTC.state_of (final r) = WebRTC.state_of w /\
  forall h, WebRTC.handler_of w = Some h ->
    completion r = Normal tt /\
    WebRTC.handler_of (final r) = Some (final (WebRtcHandler.doHangup h)) /\
    calls r = calls (WebRtcHandler.doHangup h) /\
    WebRtcHandler.p2p_connection_
      (WebRtcHandler.this (final (WebRtcHandler.doHangup h))) = None /\
    WebRtcHandler.p2p_subscribed_
      (WebRtcHandler.this (final (WebRtcHandler.doHangup h))) = false /\
    (forall pc, WebRtcHandler.p2p_connection_ (WebRtcHandler.this h) = Some pc ->
       In (Close pc) (calls r)) /\
    (WebRtcHandler.p2p_subscribed_ (WebRtcHandler.this h) = true ->
       exists ch,
         WebRtcHandler.p2p_channel_ (WebRtcHandler.this h) = Some ch /\
         In (Unsubscribe ch
               (p2p_topic (WebRtcHandler.webrtc_config_ (WebRtcHandler.this h))))
            (calls r)) /\
    (forall s, WebRtcHandler.local_stream_ (WebRtcHandler.this h) = Some s ->
       In (StreamStop s) (calls r)).
Proof.
  intros Hw%instance_well_formed Hparse Hbye r.
  assert (Hr : r = WebRTC.on_handler WebRtcHandler.doHangup w).
  { subst r. destruct w as [|st h]; [reflexivity|].
    cbn [react WebRTC.on_handler]. unfold WebRTC.delegate.
    rewrite (onChannelMessage_bye topic message v h Hparse Hbye). reflexivity. }
  split; [exact Hr|]. rewrite Hr. clear Hr r.
  destruct w as [|st h]; [split; [reflexivity | intros h [=]]|].
  cbn [WebRTC.on_handler WebRTC.state_of WebRTC.handler_of].
  rewrite state_of_delegate. split; [reflexivity|].
  intros h' [= <-]. destruct Hw as (Hch & _).
  destruct (doHangup_effects h Hch) as (Hc & Hconn & Hsub & Hclose & Hunsub & Hstop).
  unfold WebRTC.delegate.
  destruct (WebRtcHandler.doHangup h) as [c h1 evs].
  cbn [completion final calls WebRTC.handler_of] in *.
  repeat split; assumption.
Qed.

Lemma remote_bye_keeps_public_state_witness :
  let w := (run [(demo_browser, Call); (demo_browser, UserMediaSuccess 30)]
              (final (WebRTC.new demo_config))).1 in
  let r := react demo_browser (ChannelMessage (Some "event:call") bye_text) w in
  instance w /\
  WebRTC.state_of w = Some CALLING /\
  WebRTC.state_of (final r) = Some CALLING /\
  calls r = [Close 20; Unsubscribe 7 (Some "event:call"); DetachMediaStream 11;
             StreamStop 30; OnTerminated 3].
Proof.
  intros w r.
  assert (Hi : instance w).
  { exists demo_config,
      [(demo_browser, Call); (demo_browser, UserMediaSuccess 30)]. reflexivity. }
  destruct (remote_bye_keeps_public_state w demo_browser (Some "event:call")
              bye_text _ Hi eq_refl eq_refl) as (_ & Hstate & _).
  split; [exact Hi|]. split; [reflexivity|]. split.
  - fold r in Hstate. rewrite Hstate. reflexivity.
  - reflexivity.
Defined.

(** ** Constraints *)

(** C6, as the code has it.  When the first argument has a mandatory
    dictionary and an optional array, [mergeConstraints] returns it with
    every entry of the second argument's dictionary written into its own,
    its other entries as they were, and its optional array as it was:
    nothing of the second argument's optional array is appended. *)
Theorem mergeConstraints_merges_mandatory_only
    (σ : Store) (a b : loc) (A B : Constraints)
    (m : gmap string Val) (o : list Val) :
  σ !! a = Some A ->
  σ !! b = Some B ->
  mandatory A = Some m ->
  optional A = Some o ->
  let r := mergeConstraints a b σ in
  completion r = Normal a /\
  calls r = [] /\
  exists m',
    final r !! a = Some (mkConstraints (Some m') (Some o)) /\
    (forall k v, default ∅ (mandatory B) !! k = Some v -> m' !! k = Some v) /\
    (forall k, default ∅ (mandatory B) !! k = None -> m' !! k = m !! k).
Proof.
  intros Ha Hb Hm Ho r. subst r.
  rewrite (mergeConstraints_spec σ a b A B m o Ha Hb Hm Ho).
  cbn [completion final calls]. split; [reflexivity|]. split; [reflexivity|].
  exists (default ∅ (mandatory B) ∪ m). split; [apply lookup_insert_eq|]. split.
  - intros k v Hk. apply lookup_union_Some_l. exact Hk.
  - intros k Hk. apply lookup_union_r. exact Hk.
Qed.

Lemma mergeConstraints_merges_mandatory_only_witness :
  let h := WebRtcHandler.new demo_config in
  let r := mergeConstraints WebRtcHandler.offer_ref WebRtcHandler.sdp_ref
             (WebRtcHandler.store h) in
  completion r = Normal WebRtcHandler.offer_ref /\
  exists m',
    final r !! WebRtcHandler.offer_ref = Some (mkConstraints (Some m') (Some [])) /\
    m' !! "OfferToReceiveVideo" = Some (VBool true).
Proof.
  intros h r.
  destruct (mergeConstraints_merges_mandatory_only
              (WebRtcHandler.store h) WebRtcHandler.offer_ref WebRtcHandler.sdp_ref
              (mkConstraints (Some ∅) (Some []))
              (mkConstraints (Some (WebRtcHandler.sdp_mandatory demo_config)) None)
              ∅ [] eq_refl eq_refl eq_refl eq_refl)
    as (Hc & _ & m' & Hm' & Hfrom & _).
  split; [exact Hc|]. exists m'. split; [exact Hm'|].
  apply Hfrom. reflexivity.
Defined.

(** Why C6 fails as written.  With the handler's own [p2p_constraints_],
    which has no mandatory dictionary, as first argument the first
    assignment throws, and with its [sdp_constraints_], which has no optional
    array, the call of [concat] throws: there is no result.  And when the two
    arguments list the same optional entry, that entry of the second
    argument is in the result, because it was in the first. *)
Lemma mergeConstraints_claim_fails :
  let σ := WebRtcHandler.store (WebRtcHandler.new demo_config) in
  let shared := WebRtcHandler.DtlsSrtpKeyAgreement in
  let σ' : Store :=
    <[1%positive := mkConstraints (Some ∅) (Some [shared])]>
      (<[2%positive := mkConstraints (Some ∅) (Some [shared])]> ∅) in
  completion (mergeConstraints WebRtcHandler.p2p_ref WebRtcHandler.sdp_ref σ)
    = Throw TypeError /\
  completion (mergeConstraints WebRtcHandler.sdp_ref WebRtcHandler.offer_ref σ)
    = Throw TypeError /\
  exists B R x,
    σ' !! 2%positive = Some B /\
    completion (mergeConstraints 1%positive 2%positive σ') = Normal 1%positive /\
    final (mergeConstraints 1%positive 2%positive σ') !! 1%positive = Some R /\
    In x (default [] (optional B)) /\
    In x (default [] (optional R)).
Proof.
  intros σ shared σ'.
  split; [vm_compute; reflexivity|]. split; [vm_compute; reflexivity|].
  exists (mkConstraints (Some ∅) (Some [shared])),
         (mkConstraints (Some ∅) (Some [shared])), shared.
  repeat split; try (vm_compute; reflexivity); left; reflexivity.
Qed.

Lemma for_in_names_nil (o : option (gmap string Val)) (k : string) (v : Val) :
  for_in_names o = [] -> default ∅ o !! k = Some v -> False.
Proof.
  destruct o as [m|]; cbn; [|intros _; rewrite lookup_empty; discriminate].
  intros Hnames Hk. apply elem_of_map_to_list in Hk.
  destruct (map_to_list m); [inversion Hk | discriminate].
Qed.

(** Whenever [mergeConstraints] returns, it returns its first argument, has
    written to no other object, and has left in the first argument's
    dictionary every entry of the second's. *)
Lemma mergeConstraints_returns σ (a b r : loc) :
  completion (mergeConstraints a b σ) = Normal r ->
  r = a /\
  calls (mergeConstraints a b σ) = [] /\
  (forall l, l <> a -> final (mergeConstraints a b σ) !! l = σ !! l) /\
  exists A B A',
    σ !! a = Some A /\ σ !! b = Some B /\
    final (mergeConstraints a b σ) !! a = Some A' /\
    optional A' = optional A /\
    forall k v, default ∅ (mandatory B) !! k = Some v ->
                default ∅ (mandatory A') !! k = Some v.
Proof.
  destruct (σ !! b) as [B|] eqn:Hb;
    [|rewrite (mergeConstraints_no_source σ a b Hb); discriminate].
  destruct (σ !! a) as [A|] eqn:Ha.
  - destruct (mandatory A) as [m|] eqn:Hm.
    + rewrite (mergeConstraints_with_mandatory σ a b A B m Ha Hb Hm).
      cbn [completion final calls].
      destruct (optional A) as [o|] eqn:Ho; [|discriminate].
      intros [= <-]. split; [reflexivity|]. split; [reflexivity|]. split.
      * intros l Hl. apply lookup_insert_ne. congruence.
      * exists A, B, (mkConstraints (Some (default ∅ (mandatory B) ∪ m)) (Some o)).
        do 2 (split; [reflexivity|]). split; [apply lookup_insert_eq|].
        split; [cbn; congruence|].
        intros k v Hk. cbn. apply lookup_union_Some_l. exact Hk.
    + rewrite (mergeConstraints_no_target σ a b B Hb) by eauto.
      cbn [completion final calls]. rewrite Ha. cbn.
      destruct (for_in_names (mandatory B)) eqn:Hnames; [|discriminate].
      destruct (optional A) as [o|] eqn:Ho; [|discriminate].
      intros [= <-]. split; [reflexivity|]. split; [reflexivity|].
      split; [reflexivity|].
      exists A, B, A. do 4 (split; [reflexivity|]).
      intros k v Hk. destruct (for_in_names_nil _ k v Hnames Hk).
  - rewrite (mergeConstraints_no_target σ a b B Hb) by eauto.
    cbn [completion]. rewrite Ha. cbn.
    destruct (for_in_names (mandatory B)); discriminate.
Qed.

Lemma sdp_mandatory_audio config :
  WebRtcHandler.sdp_mandatory config !! "OfferToReceiveAudio"
    = Some (VBool (enable_audio config)).
Proof.
  unfold WebRtcHandler.sdp_mandatory.
  rewrite lookup_insert_ne by discriminate. apply lookup_insert_eq.
Qed.

Lemma sdp_mandatory_video config :
  WebRtcHandler.sdp_mandatory config !! "OfferToReceiveVideo" = Some (VBool true).
Proof. unfold WebRtcHandler.sdp_mandatory. apply lookup_insert_eq. Qed.

Lemma merged_frame h h' :
  same_core h h' -> handler_ok h /\ offer_merged h -> handler_ok h' /\ offer_merged h'.
Proof.
  intros Hcore [Hok Hmerged]. split; [exact (handler_ok_frame h h' Hcore Hok)|].
  destruct Hcore as (Hs & Hcfg & _). unfold offer_merged in *.
  rewrite Hs, Hcfg. exact Hmerged.
Qed.

Lemma doCall_merges h :
  handler_ok h ->
  handler_ok (final (WebRtcHandler.doCall h)) /\
  offer_merged (final (WebRtcHandler.doCall h)).
Proof.
  intros Hok. split; [exact (handler_ok_doCall h Hok)|].
  destruct Hok as (Hch & Hsdp & Hoff & Hs & m & o & Ho).
  rewrite (doCall_spec h m o); [|repeat split; eauto | exact Ho].
  destruct h as [σ t]. unfold offer_merged, WebRtcHandler.set_store. cbn in *.
  eexists _, _. split; [apply lookup_insert_eq|]. split.
  - apply lookup_union_Some_l, sdp_mandatory_audio.
  - apply lookup_union_Some_l, sdp_mandatory_video.
Qed.

Lemma merged_doCall :
  keeps (fun h => handler_ok h /\ offer_merged h) WebRtcHandler.doCall.
Proof. intros h [Hok _]. apply doCall_merges, Hok. Qed.

(** C10. [mergeConstraints] returns the very object it was given first and
    writes the second argument's mandatory entries into it, touching no
    other object.  So [doCall] leaves the entries of [sdp_constraints_] in
    the object that [offer_constraints_] refers to, which is still the same
    object, and nothing that happens to the instance later takes them out
    again. *)
Theorem mergeConstraints_in_place :
  (forall σ a b r,
     completion (mergeConstraints a b σ) = Normal r ->
     r = a /\
     (forall l, l <> a -> final (mergeConstraints a b σ) !! l = σ !! l) /\
     exists A B A',
       σ !! a = Some A /\ σ !! b = Some B /\
       final (mergeConstraints a b σ) !! a = Some A' /\
       forall k v, default ∅ (mandatory B) !! k = Some v ->
                   default ∅ (mandatory A') !! k = Some v) /\
  (forall σ a b A B m o,
     σ !! a = Some A -> σ !! b = Some B ->
     mandatory A = Some m -> optional A = Some o ->
     mergeConstraints a b σ =
       mkResult (Normal a)
         (<[a := mkConstraints (Some (default ∅ (mandatory B) ∪ m)) (Some o)]> σ)
         []) /\
  (forall config,
     WebRtcHandler.store (WebRtcHandler.new config) !! WebRtcHandler.offer_ref
       = Some (mkConstraints (Some ∅) (Some []))) /\
  (forall h,
     handler_ok h ->
     let h' := final (WebRtcHandler.doCall h) in
     WebRtcHandler.offer_constraints_ (WebRtcHandler.this h')
       = WebRtcHandler.offer_constraints_ (WebRtcHandler.this h) /\
     handler_ok h' /\
     offer_merged h' /\
     exists m o,
       WebRtcHandler.store h !! WebRtcHandler.offer_ref
         = Some (mkConstraints (Some m) (Some o)) /\
       WebRtcHandler.store h' !! WebRtcHandler.offer_ref
         = Some (mkConstraints
                   (Some (WebRtcHandler.sdp_mandatory
                            (WebRtcHandler.webrtc_config_ (WebRtcHandler.this h)) ∪ m))
                   (Some o))) /\
  (forall history w,
     lifted (fun h => handler_ok h /\ offer_merged h) w ->
     lifted (fun h => handler_ok h /\ offer_merged h) (run history w).1).
Proof.
  split.
  { intros σ a b r Hr.
    destruct (mergeConstraints_returns σ a b r Hr)
      as (Heq & _ & Hframe & A & B & A' & Ha & Hb & Ha' & _ & Hin).
    split; [exact Heq|]. split; [exact Hframe|]. exists A, B, A'. auto. }
  split.
  { intros σ a b A B m o. apply mergeConstraints_spec. }
  split.
  { intros config. apply lookup_insert_eq. }
  split.
  { intros h Hok h'.
    destruct (doCall_merges h Hok) as [Hok' Hmerged]. fold h' in Hok', Hmerged.
    destruct Hok as (Hch & Hsdp & Hoff & Hs & m & o & Ho).
    assert (Hspec := doCall_spec h m o
                       (conj Hch (conj Hsdp (conj Hoff (conj Hs
                          (ex_intro _ m (ex_intro _ o Ho)))))) Ho).
    subst h'. rewrite Hspec in *. cbn [final].
    split; [reflexivity|]. split; [exact Hok'|]. split; [exact Hmerged|].
    exists m, o. split; [exact Ho|].
    unfold WebRtcHandler.set_store. cbn. apply lookup_insert_eq. }
  { intros history w.
    apply (run_lifted _ merged_frame merged_doCall). }
Qed.

Lemma mergeConstraints_in_place_witness :
  let w := (run [(demo_browser, Call); (demo_browser, UserMediaSuccess 30)]
              (final (WebRTC.new demo_config))).1 in
  let history := [(demo_browser, ChannelMessage None bye_text);
                  (demo_browser, Hangup)] in
  lifted (fun h => handler_ok h /\ offer_merged h) w /\
  lifted (fun h => handler_ok h /\ offer_merged h) (run history w).1.
Proof.
  intros w history.
  destruct mergeConstraints_in_place as (_ & _ & _ & HdoCall & Hlater).
  assert (Hw : lifted (fun h => handler_ok h /\ offer_merged h) w).
  { change w with
      (WebRTC.Usable CALLING
         (final (WebRtcHandler.onUserMediaSuccess demo_browser 30
                   (final (WebRtcHandler.call demo_browser
                             (WebRtcHandler.new demo_config)))))).
    cbn [lifted]. split.
    - apply (keeps_onUserMediaSuccess _ handler_ok_frame handler_ok_doCall).
      apply (keeps_call _ handler_ok_frame).
      apply new_handler_ok. eexists. reflexivity.
    - exists (WebRtcHandler.sdp_mandatory demo_config ∪ ∅), [].
      split; [|split]; vm_compute; reflexivity. }
  split; [exact Hw | apply Hlater, Hw].
Defined.

(** * Further properties *)

(** ** The constructor *)

(** X1. On a configuration whose [ice_servers] is an array, the constructor
    accepts the configuration exactly when the array is not empty and there
    are a channel and a non-empty topic.  It checks the ICE servers first:
    with an empty array the report is "No ICE servers specified." whatever
    else is wrong; otherwise a missing channel or a missing or empty topic
    is reported as "Invalid P2P specification.".  A rejected configuration
    costs exactly one report and leaves an instance without state or
    handler; an accepted one gives an INITIALIZED instance around a fresh
    handler, and no call at all.  (Without the array the constructor throws
    where it reads the length; [Config] has no such object.) *)
Theorem constructor_validates (config : Config) :
  let r := WebRTC.new config in
  (ice_servers config = [] ->
     final r = WebRTC.Unusable /\
     calls r = [error_report config "No ICE servers specified."]) /\
  (ice_servers config <> [] ->
   p2p_channel config = None \/ p2p_topic config = None
     \/ p2p_topic config = Some EmptyString ->
     final r = WebRTC.Unusable /\
     calls r = [error_report config "Invalid P2P specification."]) /\
  (valid_config config ->
     final r = WebRTC.Usable INITIALIZED (WebRtcHandler.new config) /\
     calls r = []) /\
  (WebRTC.state_of (final r) = Some INITIALIZED <-> valid_config config).
Proof.
  intros r. subst r. unfold WebRTC.new, error_report, webrtc_reportError, valid_config.
  destruct (ice_servers config) as [|srv rest] eqn:Hice.
  { rewrite bool_decide_eq_true_2 by reflexivity.
    destruct (onError config); cbn.
    all: split; [intros _; split; reflexivity|].
    all: split; [intros H; contradiction|].
    all: split; [intros (H & _); contradiction|].
    all: split; [discriminate | intros (H & _); contradiction]. }
  rewrite bool_decide_eq_false_2 by discriminate.
  destruct (p2p_channel config) as [ch|] eqn:Hch.
  2: { cbn. destruct (onError config); cbn.
       all: split; [discriminate|].
       all: split; [intros _ _; split; reflexivity|].
       all: split; [intros (_ & [? H] & _); discriminate H|].
       all: split; [discriminate | intros (_ & [? H] & _); discriminate H]. }
  destruct (p2p_topic config) as [[|c topic]|] eqn:Htopic; cbn.
  - destruct (onError config); cbn.
    all: split; [discriminate|].
    all: split; [intros _ _; split; reflexivity|].
    all: split; [intros (_ & _ & t & [= <-] & Ht); contradiction|].
    all: split; [discriminate | intros (_ & _ & t & [= <-] & Ht); contradiction].
  - split; [discriminate|].
    split; [intros _ [H | [H | H]]; discriminate H|].
    split; [intros _; split; reflexivity|].
    split; [intros _ | reflexivity].
    split; [discriminate|]. split; [eexists; reflexivity|].
    eexists. split; [reflexivity | discriminate].
  - destruct (onError config); cbn.
    all: split; [discriminate|].
    all: split; [intros _ _; split; reflexivity|].
    all: split; [intros (_ & _ & t & H & _); discriminate H|].
    all: split; [discriminate | intros (_ & _ & t & H & _); discriminate H].
Qed.

Lemma constructor_validates_witness :
  valid_config demo_config /\
  final (WebRTC.new demo_config)
    = WebRTC.Usable INITIALIZED (WebRtcHandler.new demo_config) /\
  calls (WebRTC.new demo_config) = [].
Proof.
  assert (Hvalid : valid_config demo_config).
  { split; [discriminate|]. split; [eexists; reflexivity|].
    exists "event:call". split; [reflexivity | discriminate]. }
  split; [exact Hvalid|].
  destruct (constructor_validates demo_config) as (_ & _ & Haccept & _).
  exact (Haccept Hvalid).
Defined.

(** ** Starting a call *)

(** X2. [listen] and [call] of the handler return normally whatever the
    browser can do.  They subscribe to the configured topic before they ask
    for the media, and that is all they do when [getUserMedia] works; when
    calling it throws, the error is reported once and the subscription
    stays.  The two make the same calls and leave the same handler except
    for [do_call_]. *)
Theorem listen_and_call_subscribe_first
    (h : WebRtcHandler.Heap) (b : Browser) (ch : SignalingChannel) :
  WebRtcHandler.p2p_channel_ (WebRtcHandler.this h) = Some ch ->
  let config := WebRtcHandler.webrtc_config_ (WebRtcHandler.this h) in
  let r := WebRtcHandler.listen b h in
  completion r = Normal tt /\
  calls r =
    [Subscribe ch (p2p_topic config);
     if getUserMedia_throws b
     then error_report config "getUserMedia() is not supported."
     else GetUserMedia (WebRtcHandler.media_constraints_ (WebRtcHandler.this h))] /\
  WebRtcHandler.p2p_subscribed_ (WebRtcHandler.this (final r)) = true /\
  WebRtcHandler.do_call_ (WebRtcHandler.this (final r)) = false /\
  WebRtcHandler.p2p_connection_ (WebRtcHandler.this (final r))
    = WebRtcHandler.p2p_connection_ (WebRtcHandler.this h) /\
  WebRtcHandler.local_stream_ (WebRtcHandler.this (final r))
    = WebRtcHandler.local_stream_ (WebRtcHandler.this h) /\
  same_core h (final r) /\
  WebRtcHandler.call b h =
    mkResult (Normal tt) (with_do_call_ true (final r)) (calls r).
Proof.
  destruct h as [σ [cfg c sub conn rvd lvd sdp pcfg pcon off media dc ls]].
  cbn [WebRtcHandler.this WebRtcHandler.p2p_channel_]. intros ->.
  unfold with_do_call_, WebRtcHandler.listen, WebRtcHandler.call,
    WebRtcHandler.initialize, WebRtcHandler.self, error_report, same_core,
    WebRtcHandler.set_do_call_, WebRtcHandler.set_remote_video_display_,
    WebRtcHandler.set_local_video_display_, WebRtcHandler.set_p2p_subscribed_.
  eff. cbn.
  destruct (local_video_display cfg), (getUserMedia_throws b), (onError cfg);
    cbn; repeat split.
Qed.

Lemma listen_and_call_subscribe_first_witness :
  let h := WebRtcHandler.new demo_config in
  WebRtcHandler.p2p_channel_ (WebRtcHandler.this h) = Some 7 /\
  calls (WebRtcHandler.call demo_browser h) =
    [Subscribe 7 (Some "event:call");
     GetUserMedia (WebRtcHandler.media_constraints_ (WebRtcHandler.this h))].
Proof.
  intros h. split; [reflexivity|].
  destruct (listen_and_call_subscribe_first h demo_browser 7 eq_refl)
    as (_ & Hcalls & _ & _ & _ & _ & _ & Hcall).
  rewrite Hcall. cbn [calls]. exact Hcalls.
Defined.

Lemma handler_listen_call_complete (h : WebRtcHandler.Heap) (b : Browser) :
  is_Some (WebRtcHandler.p2p_channel_ (WebRtcHandler.this h)) ->
  completion (WebRtcHandler.listen b h) = Normal tt /\
  completion (WebRtcHandler.call b h) = Normal tt.
Proof.
  destruct h as [σ [cfg c sub conn rvd lvd sdp pcfg pcon off media dc ls]].
  intros [ch Hch]. cbn in Hch. subst c.
  unfold WebRtcHandler.listen, WebRtcHandler.call,
    WebRtcHandler.initialize, WebRtcHandler.self,
    WebRtcHandler.set_do_call_, WebRtcHandler.set_remote_video_display_,
    WebRtcHandler.set_local_video_display_, WebRtcHandler.set_p2p_subscribed_.
  eff. cbn.
  destruct (local_video_display cfg), (getUserMedia_throws b), (onError cfg);
    cbn; split; reflexivity.
Qed.

(** X3. The three methods of the public API return normally on every
    instance, in every state: whatever goes wrong inside is reported, not
    thrown. *)
Theorem public_api_never_throws (w : WebRTC.WebRTC) (b : Browser) :
  instance w ->
  completion (WebRTC.listen b w) = Normal tt /\
  completion (WebRTC.call b w) = Normal tt /\
  completion (WebRTC.hangup w) = Normal tt.
Proof.
  intros Hw%instance_well_formed.
  destruct w as [|st h]; [repeat split|].
  destruct Hw as ([ch Hch] & _).
  destruct (handler_listen_call_complete h b (ex_intro _ ch Hch))
    as (Hlisten & Hcall).
  destruct (doHangup_effects h (ex_intro _ ch Hch)) as (Hhangup & _).
  assert (Hh : completion (WebRtcHandler.hangup h) = Normal tt)
    by (rewrite (handler_hangup_eq h ch Hch); exact Hhangup).
  destruct st; cbn [WebRTC.listen WebRTC.call WebRTC.hangup];
    repeat split; try reflexivity;
    rewrite ?bool_decide_eq_false_2, ?bool_decide_eq_true_2
      by (first [discriminate | intros H; apply H; reflexivity]);
    unfold WebRTC.delegate;
    first [ destruct (WebRtcHandler.listen b h); exact Hlisten
          | destruct (WebRtcHandler.call b h); exact Hcall
          | destruct (WebRtcHandler.hangup h); exact Hh ].
Qed.

Lemma public_api_never_throws_witness :
  let w := (run [(demo_browser, Call)] (final (WebRTC.new demo_config))).1 in
  instance w /\ completion (WebRTC.hangup w) = Normal tt.
Proof.
  intros w.
  assert (Hi : instance w) by (exists demo_config, [(demo_browser, Call)]; reflexivity).
  split; [exact Hi|].
  apply (public_api_never_throws w demo_browser Hi).
Defined.

(** ** Local media *)

(** X4. When the local media arrive and the browser can build a peer
    connection, the handler keeps the stream, shows it if there is a local
    display, builds the connection and adds the stream to it; only a caller
    then creates an offer, with the merged offer constraints; onReady, when
    configured, is invoked once, after all that.  A callee leaves the
    constraints objects alone. *)
Theorem media_success_builds_connection
    (h : WebRtcHandler.Heap) (b : Browser) (stream : Stream) (pc : PeerConnection) :
  handler_ok h ->
  new_RTCPeerConnection b = Some pc ->
  let t := WebRtcHandler.this h in
  let r := WebRtcHandler.onUserMediaSuccess b stream h in
  completion r = Normal tt /\
  calls r =
    match WebRtcHandler.local_video_display_ t with
    | Some el => [AttachMediaStream el (Some stream)]
    | None => []
    end
    ++ [NewRTCPeerConnection (WebRtcHandler.p2p_config_ t)
          (WebRtcHandler.p2p_constraints_ t) pc;
        AddStream pc stream]
    ++ (if WebRtcHandler.do_call_ t
        then [CreateOffer pc WebRtcHandler.offer_ref] else [])
    ++ match onReady (WebRtcHandler.webrtc_config_ t) with
       | Some f => [OnReady f]
       | None => []
       end /\
  WebRtcHandler.p2p_connection_ (WebRtcHandler.this (final r)) = Some pc /\
  WebRtcHandler.local_stream_ (WebRtcHandler.this (final r)) = Some stream /\
  (WebRtcHandler.do_call_ t = false ->
     WebRtcHandler.store (final r) = WebRtcHandler.store h) /\
  (WebRtcHandler.do_call_ t = true -> offer_merged (final r)).
Proof.
  intros Hok Hpc.
  pose proof Hok as (Hch & Hsdp & Hoff & Hs & m & o & Ho).
  destruct h as [σ [cfg c sub conn rvd lvd sdp pcfg pcon off media dc ls]].
  cbn in Hch, Hsdp, Hoff, Hs, Ho. subst sdp off.
  cbn [WebRtcHandler.this WebRtcHandler.local_video_display_
       WebRtcHandler.p2p_config_ WebRtcHandler.p2p_constraints_
       WebRtcHandler.do_call_ WebRtcHandler.webrtc_config_ WebRtcHandler.store].
  unfold WebRtcHandler.onUserMediaSuccess, WebRtcHandler.addLocalStream,
    WebRtcHandler.attachMediaStream, WebRtcHandler.createP2PConnection,
    WebRtcHandler.self, WebRtcHandler.set_local_stream_,
    WebRtcHandler.set_p2p_connection_.
  eff. rewrite Hpc. cbn.
  destruct dc; cbn.
  - set (h1 := WebRtcHandler.mkHeap σ _).
    assert (Hok1 : handler_ok h1).
    { unfold handler_ok. cbn. repeat split; eauto. }
    destruct lvd as [el|]; cbn;
      (rewrite (doCall_spec _ m o Hok1 Ho) ||
       (match goal with
        | |- context [WebRtcHandler.doCall ?x] =>
            rewrite (doCall_spec x m o); [|unfold handler_ok; cbn; repeat split; eauto | exact Ho]
        end));
      cbn; destruct (onReady cfg); cbn; repeat split; try discriminate;
      intros _; unfold offer_merged, WebRtcHandler.set_store; cbn;
      eexists _, _; (split; [apply lookup_insert_eq|]); split;
      first [apply lookup_union_Some_l, sdp_mandatory_audio
            | apply lookup_union_Some_l, sdp_mandatory_video].
  - destruct lvd as [el|]; cbn; destruct (onReady cfg); cbn;
      repeat split; discriminate.
Qed.

Lemma media_success_builds_connection_witness :
  let h := final (WebRtcHandler.call demo_browser (WebRtcHandler.new demo_config)) in
  handler_ok h /\
  new_RTCPeerConnection demo_browser = Some 20 /\
  calls (WebRtcHandler.onUserMediaSuccess demo_browser 30 h) =
    [AttachMediaStream 11 (Some 30);
     NewRTCPeerConnection ["stun:stun.example.org"] WebRtcHandler.p2p_ref 20;
     AddStream 20 30; CreateOffer 20 WebRtcHandler.offer_ref; OnReady 1].
Proof.
  intros h.
  assert (Hok : handler_ok h).
  { apply (keeps_call _ handler_ok_frame), new_handler_ok. eexists. reflexivity. }
  split; [exact Hok|]. split; [reflexivity|].
  destruct (media_success_builds_connection h demo_browser 30 20 Hok eq_refl)
    as (_ & Hcalls & _).
  rewrite Hcalls. reflexivity.
Defined.

(** X5. A capability error is reported once and tears nothing down.  When
    the media are refused, the handler is left exactly as it was.  When the
    peer connection cannot be built, the handler keeps the stream it was
    given (and has shown it), has no connection, adds no stream, creates no
    offer and does not invoke onReady; it is as subscribed as before. *)
Theorem capability_errors_tear_nothing_down
    (h : WebRtcHandler.Heap) (b : Browser) (stream : Stream) :
  let t := WebRtcHandler.this h in
  let config := WebRtcHandler.webrtc_config_ t in
  WebRtcHandler.onUserMediaError h =
    mkResult (Normal tt) h
      [error_report config "Failed to get access to local media."] /\
  (new_RTCPeerConnection b = None ->
   let r := WebRtcHandler.onUserMediaSuccess b stream h in
   completion r = Normal tt /\
   calls r =
     match WebRtcHandler.local_video_display_ t with
     | Some el => [AttachMediaStream el (Some stream)]
     | None => []
     end
     ++ [error_report config "WebRTC P2P connection is not supported."] /\
   WebRtcHandler.p2p_connection_ (WebRtcHandler.this (final r)) = None /\
   WebRtcHandler.local_stream_ (WebRtcHandler.this (final r)) = Some stream /\
   WebRtcHandler.p2p_subscribed_ (WebRtcHandler.this (final r))
     = WebRtcHandler.p2p_subscribed_ t /\
   same_core h (final r)).
Proof.
  destruct h as [σ [cfg c sub conn rvd lvd sdp pcfg pcon off media dc ls]].
  cbn [WebRtcHandler.this WebRtcHandler.webrtc_config_
       WebRtcHandler.local_video_display_ WebRtcHandler.p2p_subscribed_].
  split.
  - unfold WebRtcHandler.onUserMediaError, WebRtcHandler.self, error_report.
    eff. cbn. destruct (onError cfg); reflexivity.
  - intros Hpc.
    unfold WebRtcHandler.onUserMediaSuccess, WebRtcHandler.addLocalStream,
      WebRtcHandler.attachMediaStream, WebRtcHandler.createP2PConnection,
      WebRtcHandler.self, WebRtcHandler.set_local_stream_,
      WebRtcHandler.set_p2p_connection_, error_report, same_core.
    eff. rewrite Hpc. cbn.
    destruct cfg as [ice pch top rv lv vw vh vf ea f1 f2 f3 f4].
    destruct lvd, f4; cbn; repeat split.
Qed.

Lemma capability_errors_tear_nothing_down_witness :
  let b := mkBrowser (getElementById demo_browser) false None in
  let h := final (WebRtcHandler.listen b (WebRtcHandler.new demo_config)) in
  new_RTCPeerConnection b = None /\
  calls (WebRtcHandler.onUserMediaSuccess b 30 h) =
    [AttachMediaStream 11 (Some 30);
     OnError 4 "WebRTC P2P connection is not supported."].
Proof.
  intros b h. split; [reflexivity|].
  destruct (capability_errors_tear_nothing_down h b 30) as (_ & Hfail).
  destruct (Hfail eq_refl) as (_ & Hcalls & _).
  rewrite Hcalls. reflexivity.
Defined.

(** ** Signalling with a peer connection *)

(** X6. With a peer connection in place, an Offer sets the remote
    description and asks for an answer with the SDP constraints, an Answer
    sets the remote description and replies nothing, and a Candidate is
    handed to the connection; each returns normally and leaves the handler
    as it was.  Without a connection an Offer throws a TypeError before
    anything is done, like the Answer of C4. *)
Theorem offer_answer_candidate_dispatch
    (h : WebRtcHandler.Heap) (topic : option string) (message : jsstring)
    (v : JsValue) :
  JSON_parse message = Some v ->
  let t := WebRtcHandler.this h in
  let type := get_member v "type" in
  (forall pc, WebRtcHandler.p2p_connection_ t = Some pc ->
     (is_string type "offer" = true ->
      WebRtcHandler.onChannelMessage topic message h =
        mkResult (Normal tt) h
          [NewRTCSessionDescription v; SetRemoteDescription pc v;
           CreateAnswer pc (WebRtcHandler.sdp_constraints_ t)]) /\
     (is_string type "answer" = true ->
      WebRtcHandler.onChannelMessage topic message h =
        mkResult (Normal tt) h
          [NewRTCSessionDescription v; SetRemoteDescription pc v]) /\
     (is_string type "candidate" = true ->
      WebRtcHandler.onChannelMessage topic message h =
        mkResult (Normal tt) h
          [NewRTCIceCandidate (get_member v "label") (get_member v "candidate");
           AddIceCandidate pc (get_member v "label") (get_member v "candidate")])) /\
  (WebRtcHandler.p2p_connection_ t = None ->
   is_string type "offer" = true ->
   WebRtcHandler.onChannelMessage topic message h = mkResult (Throw TypeError) h []).
Proof.
  intros Hparse t type. subst t type.
  destruct h as [σ [cfg c sub conn rvd lvd sdp pcfg pcon off media dc ls]].
  cbn [WebRtcHandler.this WebRtcHandler.p2p_connection_
       WebRtcHandler.sdp_constraints_].
  split; [intros pc ->; split; [|split]|intros ->]; intros Htype;
    (rewrite (onChannelMessage_parsed topic message v _ Hparse)
       by (intros ->; discriminate));
    cbv zeta; rewrite (is_string_true _ _ Htype); reflexivity.
Qed.


Lemma offer_answer_candidate_dispatch_witness :
  let h := final (WebRtcHandler.onUserMediaSuccess demo_browser 30
                    (final (WebRtcHandler.listen demo_browser
                              (WebRtcHandler.new demo_config)))) in
  calls (WebRtcHandler.onChannelMessage None offer_text h) =
    [NewRTCSessionDescription
       (JObject [(codes "type", JString (codes "offer"));
                 (codes "sdp", JString (codes "v=0"))]);
     SetRemoteDescription 20
       (JObject [(codes "type", JString (codes "offer"));
                 (codes "sdp", JString (codes "v=0"))]);
     CreateAnswer 20 WebRtcHandler.sdp_ref].
Proof.
  intros h.
  destruct (offer_answer_candidate_dispatch h None offer_text _ eq_refl)
    as (Hwith & _).
  destruct (Hwith 20 eq_refl) as (Hoffer & _).
  rewrite (Hoffer eq_refl). reflexivity.
Defined.

(** What arriving media leave in the handler when the browser can build
    a peer connection: the connection, and for the rest the configuration,
    the channel and the subscription as they were. *)
Lemma onUserMediaSuccess_rebuilds
    (h : WebRtcHandler.Heap) (b : Browser) (stream : Stream) (pc : PeerConnection) :
  handler_ok h ->
  new_RTCPeerConnection b = Some pc ->
  let t' := WebRtcHandler.this (final (WebRtcHandler.onUserMediaSuccess b stream h)) in
  WebRtcHandler.p2p_connection_ t' = Some pc /\
  WebRtcHandler.webrtc_config_ t' = WebRtcHandler.webrtc_config_ (WebRtcHandler.this h) /\
  WebRtcHandler.p2p_channel_ t' = WebRtcHandler.p2p_channel_ (WebRtcHandler.this h) /\
  WebRtcHandler.p2p_subscribed_ t'
    = WebRtcHandler.p2p_subscribed_ (WebRtcHandler.this h).
Proof.
  intros Hok Hpc.
  pose proof Hok as (Hch & Hsdp & Hoff & Hs & m & o & Ho).
  destruct h as [σ [cfg c sub conn rvd lvd sdp pcfg pcon off media dc ls]].
  cbn in Hch, Hsdp, Hoff, Hs, Ho. subst sdp off.
  cbn [WebRtcHandler.this WebRtcHandler.webrtc_config_ WebRtcHandler.p2p_channel_
       WebRtcHandler.p2p_subscribed_].
  unfold WebRtcHandler.onUserMediaSuccess, WebRtcHandler.addLocalStream,
    WebRtcHandler.attachMediaStream, WebRtcHandler.createP2PConnection,
    WebRtcHandler.self, WebRtcHandler.set_local_stream_,
    WebRtcHandler.set_p2p_connection_.
  eff. rewrite Hpc. cbn.
  destruct dc; cbn.
  - destruct lvd as [el|]; cbn;
      match goal with
      | |- context [WebRtcHandler.doCall ?x] =>
          rewrite (doCall_spec x m o);
            [|unfold handler_ok; cbn; repeat split; eauto | exact Ho]
      end;
      cbn; destruct (onReady cfg); cbn; repeat split.
  - destruct lvd as [el|]; cbn; destruct (onReady cfg); cbn; repeat split.
Qed.

(** X7. A session description is made the local description and then
    published, as its JSON text, on the handler's channel and topic.  With
    no peer connection nothing is published: a TypeError is thrown first.
    That is so right after a teardown, but a teardown does not end it: when
    media arrive afterwards the handler builds a connection again, and a
    description created for it is set and published as before, by a handler
    that is no longer subscribed. *)
Theorem setLocalAndSend_needs_connection
    (h : WebRtcHandler.Heap) (session_description : JsValue) (ch : SignalingChannel)
    (b : Browser) (stream : Stream) (pc : PeerConnection) :
  WebRtcHandler.p2p_channel_ (WebRtcHandler.this h) = Some ch ->
  let t := WebRtcHandler.this h in
  let sent :=
    [SetLocalDescription pc session_description;
     Publish ch (p2p_topic (WebRtcHandler.webrtc_config_ t))
       (JSON_stringify session_description)] in
  let torn := final (WebRtcHandler.doHangup h) in
  (WebRtcHandler.p2p_connection_ t = Some pc ->
     WebRtcHandler.setLocalAndSend session_description h =
       mkResult (Normal tt) h sent) /\
  (WebRtcHandler.p2p_connection_ t = None ->
     WebRtcHandler.setLocalAndSend session_description h =
       mkResult (Throw TypeError) h []) /\
  WebRtcHandler.setLocalAndSend session_description torn =
    mkResult (Throw TypeError) torn [] /\
  (handler_ok h ->
   new_RTCPeerConnection b = Some pc ->
   let again := final (WebRtcHandler.onUserMediaSuccess b stream torn) in
   WebRtcHandler.p2p_subscribed_ (WebRtcHandler.this again) = false /\
   WebRtcHandler.setLocalAndSend session_description again =
     mkResult (Normal tt) again sent).
Proof.
  intros Hch t sent torn. subst t sent torn.
  assert (Hnone : forall h', WebRtcHandler.p2p_connection_ (WebRtcHandler.this h') = None ->
            WebRtcHandler.setLocalAndSend session_description h' =
              mkResult (Throw TypeError) h' []).
  { intros h' Hconn. unfold WebRtcHandler.setLocalAndSend, WebRtcHandler.self.
    eff. rewrite Hconn. reflexivity. }
  assert (Hsome : forall h', WebRtcHandler.p2p_connection_ (WebRtcHandler.this h') = Some pc ->
            WebRtcHandler.p2p_channel_ (WebRtcHandler.this h') = Some ch ->
            WebRtcHandler.setLocalAndSend session_description h' =
              mkResult (Normal tt) h'
                [SetLocalDescription pc session_description;
                 Publish ch
                   (p2p_topic (WebRtcHandler.webrtc_config_ (WebRtcHandler.this h')))
                   (JSON_stringify session_description)]).
  { intros h' Hpc Hch'.
    unfold WebRtcHandler.setLocalAndSend, WebRtcHandler.send, WebRtcHandler.self.
    eff. rewrite Hpc. cbn. rewrite Hch'. reflexivity. }
  split; [intros Hpc; apply Hsome; assumption|].
  split; [apply Hnone|].
  split; [apply Hnone; apply (doHangup_effects h); eauto|].
  intros Hok Hpc again.
  assert (Hok' : handler_ok (final (WebRtcHandler.doHangup h)))
    by (apply (keeps_doHangup _ handler_ok_frame), Hok).
  destruct (onUserMediaSuccess_rebuilds _ b stream pc Hok' Hpc)
    as (Hconn & Hcfg & Hch' & Hsub).
  fold again in Hconn, Hcfg, Hch', Hsub.
  assert (Hcore : same_core h (final (WebRtcHandler.doHangup h))).
  { destruct h as [σ [cfg c sub conn rvd lvd sdp pcfg pcon off media dc ls]].
    cbn in Hch. subst c.
    unfold WebRtcHandler.doHangup, WebRtcHandler.removeLocalStream,
      WebRtcHandler.detachMediaStream, WebRtcHandler.self,
      WebRtcHandler.set_p2p_connection_, WebRtcHandler.set_p2p_subscribed_.
    eff. cbn.
    destruct conn, sub, ls, lvd, (onTerminated cfg); cbn; repeat split. }
  destruct Hcore as (_ & Hcfg0 & Hch0 & _).
  split.
  - rewrite Hsub. apply (doHangup_effects h). eauto.
  - rewrite (Hsome again Hconn) by congruence.
    rewrite Hcfg, Hcfg0. reflexivity.
Qed.

Lemma setLocalAndSend_needs_connection_witness :
  let h := final (WebRtcHandler.onUserMediaSuccess demo_browser 30
                    (final (WebRtcHandler.call demo_browser
                              (WebRtcHandler.new demo_config)))) in
  let offer := JObject [(codes "type", JString (codes "offer"));
                        (codes "sdp", JString (codes "v=0"))] in
  let torn := final (WebRtcHandler.doHangup h) in
  let again := final (WebRtcHandler.onUserMediaSuccess demo_browser 31 torn) in
  WebRtcHandler.p2p_channel_ (WebRtcHandler.this h) = Some 7 /\
  handler_ok h /\
  calls (WebRtcHandler.setLocalAndSend offer h) =
    [SetLocalDescription 20 offer; Publish 7 (Some "event:call") offer_text] /\
  completion (WebRtcHandler.setLocalAndSend offer torn) = Throw TypeError /\
  WebRtcHandler.p2p_subscribed_ (WebRtcHandler.this again) = false /\
  calls (WebRtcHandler.setLocalAndSend offer again) =
    [SetLocalDescription 20 offer; Publish 7 (Some "event:call") offer_text].
Proof.
  intros h offer torn again.
  assert (Hok : handler_ok h).
  { apply (keeps_onUserMediaSuccess _ handler_ok_frame handler_ok_doCall).
    apply (keeps_call _ handler_ok_frame).
    apply new_handler_ok. cbn. eauto. }
  split; [reflexivity|]. split; [exact Hok|].
  destruct (setLocalAndSend_needs_connection h offer 7 demo_browser 31 20 eq_refl)
    as (Hwith & _ & Hafter & Hagain).
  destruct (Hagain Hok eq_refl) as [Hsub Hsent].
  split; [rewrite (Hwith eq_refl); reflexivity|].
  split; [fold torn in Hafter; rewrite Hafter; reflexivity|].
  split; [exact Hsub|].
  fold torn again in Hsent. rewrite Hsent. reflexivity.
Defined.

(** X8. Every remote stream that is added is shown on the remote display,
    when the page has one, and reported through onConnected, when
    configured: one invocation per stream, not one per call.  A remote
    stream that is removed is never taken off the display: with a remote
    display the handler passes an undefined element to [detachMediaStream]
    and a TypeError comes out, without one nothing happens. *)
Theorem remote_stream_events
    (h : WebRtcHandler.Heap) (stream : option Stream) (n : nat) :
  let t := WebRtcHandler.this h in
  let shown :=
    match WebRtcHandler.remote_video_display_ t with
    | Some el => [AttachMediaStream el stream]
    | None => []
    end in
  let reported :=
    match onConnected (WebRtcHandler.webrtc_config_ t) with
    | Some f => [OnConnected f]
    | None => []
    end in
  WebRtcHandler.onRemoteStreamAdded stream h =
    mkResult (Normal tt) h (shown ++ reported) /\
  times n (WebRtcHandler.onRemoteStreamAdded stream) h =
    mkResult (Normal tt) h (concat (replicate n (shown ++ reported))) /\
  WebRtcHandler.onRemoteStreamRemoved h =
    mkResult
      (match WebRtcHandler.remote_video_display_ t with
       | Some _ => Throw TypeError
       | None => Normal tt
       end) h [].
Proof.
  intros t shown reported.
  assert (Hadded : WebRtcHandler.onRemoteStreamAdded stream h =
                     mkResult (Normal tt) h (shown ++ reported)).
  { subst t shown reported.
    destruct h as [σ [cfg c sub conn rvd lvd sdp pcfg pcon off media dc ls]].
    unfold WebRtcHandler.onRemoteStreamAdded, WebRtcHandler.attachMediaStream,
      WebRtcHandler.self.
    eff. cbn. destruct rvd, (onConnected cfg); reflexivity. }
  split; [exact Hadded|]. split; [apply times_fixed, Hadded|].
  subst t. destruct h as [σ [cfg c sub conn rvd lvd sdp pcfg pcon off media dc ls]].
  unfold WebRtcHandler.onRemoteStreamRemoved, WebRtcHandler.detachMediaStream,
    WebRtcHandler.self.
  eff. cbn. destruct rvd; reflexivity.
Qed.

(** ** Teardown and what it does not undo *)

Lemma onUserMediaSuccess_connects
    (h : WebRtcHandler.Heap) (b : Browser) (stream : Stream) (pc : PeerConnection) :
  handler_ok h ->
  new_RTCPeerConnection b = Some pc ->
  let r := WebRtcHandler.onUserMediaSuccess b stream h in
  completion r = Normal tt /\
  WebRtcHandler.p2p_connection_ (WebRtcHandler.this (final r)) = Some pc /\
  WebRtcHandler.local_stream_ (WebRtcHandler.this (final r)) = Some stream /\
  In (NewRTCPeerConnection (WebRtcHandler.p2p_config_ (WebRtcHandler.this h))
        (WebRtcHandler.p2p_constraints_ (WebRtcHandler.this h)) pc) (calls r) /\
  In (AddStream pc stream) (calls r).
Proof.
  intros Hok Hpc.
  pose proof Hok as (Hch & Hsdp & Hoff & Hs & m & o & Ho).
  destruct h as [σ [cfg c sub conn rvd lvd sdp pcfg pcon off media dc ls]].
  cbn in Hch, Hsdp, Hoff, Hs, Ho. subst sdp off.
  cbn [WebRtcHandler.this WebRtcHandler.p2p_config_ WebRtcHandler.p2p_constraints_].
  unfold WebRtcHandler.onUserMediaSuccess, WebRtcHandler.addLocalStream,
    WebRtcHandler.attachMediaStream, WebRtcHandler.createP2PConnection,
    WebRtcHandler.self, WebRtcHandler.set_local_stream_,
    WebRtcHandler.set_p2p_connection_.
  eff. rewrite Hpc. cbn.
  destruct dc; cbn.
  - destruct lvd as [el|]; cbn;
      match goal with
      | |- context [WebRtcHandler.doCall ?x] =>
          rewrite (doCall_spec x m o);
            [|unfold handler_ok; cbn; repeat split; eauto | exact Ho]
      end;
      cbn; destruct (onReady cfg); cbn; repeat split; auto 10.
  - destruct lvd as [el|]; cbn; destruct (onReady cfg); cbn;
      repeat split; auto 10.
Qed.

Lemma delegate_eq next m h :
  WebRTC.delegate next m h =
    mkResult (completion (m h)) (WebRTC.Usable next (final (m h))) (calls (m h)).
Proof. unfold WebRTC.delegate. destruct (m h). reflexivity. Qed.

(** X9. A teardown does not cancel a request for media that is still
    pending.  On an instance that was hung up while CALLING, the media that
    arrive afterwards are still kept and a peer connection is still built
    and given the stream; the state stays TERMINATED, so hangup is a no-op
    from then on and nothing closes that connection. *)
Theorem teardown_does_not_cancel_media
    (w : WebRTC.WebRTC) (b : Browser) (stream : Stream) (pc : PeerConnection) :
  instance w ->
  WebRTC.state_of w = Some CALLING ->
  new_RTCPeerConnection b = Some pc ->
  let r := react b (UserMediaSuccess stream) (final (WebRTC.hangup w)) in
  completion r = Normal tt /\
  WebRTC.state_of (final r) = Some TERMINATED /\
  (exists h',
     WebRTC.handler_of (final r) = Some h' /\
     WebRtcHandler.p2p_connection_ (WebRtcHandler.this h') = Some pc /\
     WebRtcHandler.local_stream_ (WebRtcHandler.this h') = Some stream) /\
  In (AddStream pc stream) (calls r) /\
  WebRTC.hangup (final r) = mkResult (Normal tt) (final r) [].
Proof.
  intros Hw%instance_well_formed Hstate Hpc r.
  destruct w as [|st h]; [discriminate|]. injection Hstate as ->.
  assert (Hok1 : handler_ok (final (WebRtcHandler.hangup h)))
    by (apply (keeps_hangup _ handler_ok_frame), Hw).
  subst r. rewrite hangup_CALLING, delegate_eq. cbn [final].
  cbn [react WebRTC.on_handler]. rewrite delegate_eq.
  cbn [completion final calls WebRTC.state_of WebRTC.handler_of].
  destruct (onUserMediaSuccess_connects _ b stream pc Hok1 Hpc)
    as (Hc & Hconn & Hstream & _ & Hadd).
  split; [exact Hc|]. split; [reflexivity|]. split; [eauto|].
  split; [exact Hadd | reflexivity].
Qed.

Lemma teardown_does_not_cancel_media_witness :
  let w := (run [(demo_browser, Call)] (final (WebRTC.new demo_config))).1 in
  let r := react demo_browser (UserMediaSuccess 30) (final (WebRTC.hangup w)) in
  instance w /\
  WebRTC.state_of w = Some CALLING /\
  WebRTC.state_of (final r) = Some TERMINATED /\
  In (AddStream 20 30) (calls r).
Proof.
  intros w r.
  assert (Hi : instance w) by (exists demo_config, [(demo_browser, Call)]; reflexivity).
  destruct (teardown_does_not_cancel_media w demo_browser 30 20 Hi eq_refl eq_refl)
    as (_ & Hstate & _ & Hadd & _).
  split; [exact Hi|]. split; [reflexivity|]. split; assumption.
Defined.

(** ** More about merging constraints *)

Lemma for_in_names_nil_iff (o : option (gmap string Val)) :
  for_in_names o = [] <-> default ∅ o = ∅.
Proof.
  destruct o as [m|]; cbn; [|split; reflexivity].
  split.
  - intros H. apply map_to_list_empty_iff.
    destruct (map_to_list m); [reflexivity | discriminate].
  - intros ->. rewrite map_to_list_empty. reflexivity.
Qed.

(** X10. Merging the same constraints a second time changes nothing: the
    call returns the first argument again and the store is as the first
    merge left it.  A second argument that is another object is never
    written. *)
Theorem mergeConstraints_idempotent
    (σ : Store) (a b : loc) (A B : Constraints)
    (m : gmap string Val) (o : list Val) :
  σ !! a = Some A ->
  σ !! b = Some B ->
  mandatory A = Some m ->
  optional A = Some o ->
  let σ1 := final (mergeConstraints a b σ) in
  mergeConstraints a b σ1 = mkResult (Normal a) σ1 [] /\
  (a <> b -> σ1 !! b = Some B).
Proof.
  intros Ha Hb Hm Ho σ1. subst σ1.
  rewrite (mergeConstraints_spec σ a b A B m o Ha Hb Hm Ho). cbn [final].
  set (A1 := mkConstraints (Some (default ∅ (mandatory B) ∪ m)) (Some o)).
  assert (Ha1 : <[a := A1]> σ !! a = Some A1) by apply lookup_insert_eq.
  destruct (decide (a = b)) as [<-|Hab].
  - split; [|intros Hne; contradiction].
    rewrite (mergeConstraints_spec _ a a A1 A1 _ o Ha1 Ha1 eq_refl eq_refl).
    cbn [mandatory A1 default]. rewrite (idemp_L (∪) _), insert_insert_eq.
    reflexivity.
  - assert (Hb1 : <[a := A1]> σ !! b = Some B)
      by (rewrite lookup_insert_ne by exact Hab; exact Hb).
    split; [|intros _; exact Hb1].
    rewrite (mergeConstraints_spec _ a b A1 B _ o Ha1 Hb1 eq_refl eq_refl).
    rewrite (assoc_L (∪)), (idemp_L (∪) _), insert_insert_eq. reflexivity.
Qed.

Lemma mergeConstraints_idempotent_witness :
  let σ := WebRtcHandler.store (WebRtcHandler.new demo_config) in
  let σ1 := final (mergeConstraints WebRtcHandler.offer_ref WebRtcHandler.sdp_ref σ) in
  completion (mergeConstraints WebRtcHandler.offer_ref WebRtcHandler.sdp_ref σ1)
    = Normal WebRtcHandler.offer_ref /\
  final (mergeConstraints WebRtcHandler.offer_ref WebRtcHandler.sdp_ref σ1) = σ1.
Proof.
  intros σ σ1.
  destruct (mergeConstraints_idempotent σ WebRtcHandler.offer_ref
              WebRtcHandler.sdp_ref
              (mkConstraints (Some ∅) (Some []))
              (mkConstraints (Some (WebRtcHandler.sdp_mandatory demo_config)) None)
              ∅ [] eq_refl eq_refl eq_refl eq_refl) as [Hagain _].
  fold σ1 in Hagain. rewrite Hagain. split; reflexivity.
Defined.

(** X11. When both arguments are objects, [mergeConstraints] throws (a
    TypeError) exactly when the first has no optional array, or has no
    mandatory dictionary while the second has an entry to write.  In the
    second case nothing has been written.  In the first case, if the first
    argument has a mandatory dictionary, the entries of the second are
    already in it when the exception is thrown. *)
Theorem mergeConstraints_throws_iff
    (σ : Store) (a b : loc) (A B : Constraints) :
  σ !! a = Some A ->
  σ !! b = Some B ->
  let r := mergeConstraints a b σ in
  (completion r = Throw TypeError <->
   optional A = None \/
   (mandatory A = None /\ default ∅ (mandatory B) <> ∅)) /\
  (completion r = Normal a \/ completion r = Throw TypeError) /\
  (mandatory A = None -> final r = σ) /\
  (forall m, mandatory A = Some m ->
     final r !! a =
       Some (mkConstraints (Some (default ∅ (mandatory B) ∪ m)) (optional A))).
Proof.
  intros Ha Hb r. subst r.
  destruct (mandatory A) as [m|] eqn:Hm.
  - rewrite (mergeConstraints_with_mandatory σ a b A B m Ha Hb Hm).
    cbn [completion final].
    split; [|split; [|split]].
    + destruct (optional A); split.
      * discriminate.
      * intros [H | [H _]]; discriminate H.
      * auto.
      * reflexivity.
    + destruct (optional A); auto.
    + discriminate.
    + intros m' [= <-]. apply lookup_insert_eq.
  - rewrite (mergeConstraints_no_target σ a b B Hb) by eauto.
    cbn [completion final]. rewrite Ha. cbn.
    pose proof (for_in_names_nil_iff (mandatory B)) as Hnil.
    split; [|split; [|split]].
    + destruct (for_in_names (mandatory B)) eqn:Hnames.
      * destruct (optional A); split.
        -- discriminate.
        -- intros [H | [_ H]]; [discriminate H|]. exfalso. apply H, Hnil. reflexivity.
        -- auto.
        -- reflexivity.
      * split; [|reflexivity]. intros _.
        destruct (optional A); [right | left; reflexivity].
        split; [reflexivity|]. intros H. apply Hnil in H. discriminate H.
    + destruct (for_in_names (mandatory B)), (optional A); auto.
    + reflexivity.
    + discriminate.
Qed.

Lemma mergeConstraints_throws_iff_witness :
  let σ := WebRtcHandler.store (WebRtcHandler.new demo_config) in
  completion (mergeConstraints WebRtcHandler.sdp_ref WebRtcHandler.offer_ref σ)
    = Throw TypeError /\
  completion (mergeConstraints WebRtcHandler.p2p_ref WebRtcHandler.sdp_ref σ)
    = Throw TypeError /\
  final (mergeConstraints WebRtcHandler.p2p_ref WebRtcHandler.sdp_ref σ) = σ.
Proof.
  intros σ.
  destruct (mergeConstraints_throws_iff σ WebRtcHandler.sdp_ref WebRtcHandler.offer_ref
              (mkConstraints (Some (WebRtcHandler.sdp_mandatory demo_config)) None)
              (mkConstraints (Some ∅) (Some [])) eq_refl eq_refl)
    as (Hiff1 & _).
  destruct (mergeConstraints_throws_iff σ WebRtcHandler.p2p_ref WebRtcHandler.sdp_ref
              (mkConstraints None (Some [WebRtcHandler.DtlsSrtpKeyAgreement]))
              (mkConstraints (Some (WebRtcHandler.sdp_mandatory demo_config)) None)
              eq_refl eq_refl)
    as (Hiff2 & _ & Hsame & _).
  split; [apply Hiff1; left; reflexivity|].
  split; [|apply Hsame; reflexivity].
  apply Hiff2. right. split; [reflexivity|]. vm_compute. discriminate.
Defined.

(** ** More about the channel *)

Lemma publish_open (h : Channel.Heap) (s : WampSession)
    (topic : string) (data : jsstring) (x : Val) :
  Channel.session_ (Channel.this h) = Some s ->
  Channel.publish topic data x h =
    mkResult (Normal tt)
      (Channel.mkHeap (Channel.this h) (Some (effective_exclude_me h)))
      [SessionPublish s topic data (effective_exclude_me h)].
Proof.
  intros Hs. unfold Channel.publish, effective_exclude_me. eff. rewrite Hs.
  reflexivity.
Qed.

(** X12. On an open channel every [publish] makes one call on the session,
    and the third argument of [publish] never reaches it: what is passed as
    exclude_me is the value of the global variable of that name, or [true]
    when the page has none, for every call of a run, whatever the callers
    asked for. *)
Theorem publish_ignores_its_third_argument
    (h : Channel.Heap) (s : WampSession) (requests : list (string * jsstring * Val)) :
  Channel.session_ (Channel.this h) = Some s ->
  let r := publish_each requests h in
  completion r = Normal tt /\
  calls r =
    map (fun q => SessionPublish s q.1.1 q.1.2 (effective_exclude_me h)) requests /\
  Channel.this (final r) = Channel.this h.
Proof.
  intros Hs. unfold publish_each. cbv zeta.
  revert h Hs. induction requests as [|q requests IH]; intros h Hs.
  - repeat split.
  - rewrite (for_each_cons q requests
               (fun q => Channel.publish q.1.1 q.1.2 q.2) h _ _
               (publish_open h s q.1.1 q.1.2 q.2 Hs)).
    set (h1 := Channel.mkHeap (Channel.this h) (Some (effective_exclude_me h))).
    assert (Heff : effective_exclude_me h1 = effective_exclude_me h).
    { unfold effective_exclude_me at 1. cbn.
      unfold effective_exclude_me.
      destruct (Channel.global_exclude_me h) as [[]|]; reflexivity. }
    destruct (IH h1 Hs) as (Hc & Hcalls & Hthis).
    cbn [completion final calls]. rewrite Hcalls, Heff.
    repeat split; assumption.
Qed.

Lemma publish_ignores_its_third_argument_witness :
  let h := Channel.mkHeap (Channel.mkChannel "alice" "s1" (Some 5)) None in
  Channel.session_ (Channel.this h) = Some 5 /\
  calls (publish_each [("event:call", bye_text, VBool false);
                       ("event:call", bye_text, VBool true)] h) =
    [SessionPublish 5 "event:call" bye_text (VBool true);
     SessionPublish 5 "event:call" bye_text (VBool true)].
Proof.
  intros h. split; [reflexivity|].
  destruct (publish_ignores_its_third_argument h 5
              [("event:call", bye_text, VBool false);
               ("event:call", bye_text, VBool true)] eq_refl)
    as (_ & Hcalls & _).
  rewrite Hcalls. reflexivity.
Defined.

(** X13. [close] closes the session once when there is one and forgets it;
    it never throws, a second [close] does nothing, and after it the channel
    drops whatever it is asked to subscribe, unsubscribe or publish. *)
Theorem close_forgets_the_session
    (h : Channel.Heap) (topic : string) (f : Callback) (data : jsstring) (x : Val) :
  let r := Channel.close h in
  completion r = Normal tt /\
  calls r =
    match Channel.session_ (Channel.this h) with
    | Some s => [SessionClose s]
    | None => []
    end /\
  Channel.isOpen (Channel.this (final r)) = false /\
  Channel.username_ (Channel.this (final r)) = Channel.username_ (Channel.this h) /\
  Channel.user_session_id_ (Channel.this (final r))
    = Channel.user_session_id_ (Channel.this h) /\
  Channel.close (final r) = mkResult (Normal tt) (final r) [] /\
  Channel.subscribe topic f (final r) = mkResult (Normal tt) (final r) [] /\
  Channel.unsubscribe topic (final r) = mkResult (Normal tt) (final r) [] /\
  Channel.publish topic data x (final r) = mkResult (Normal tt) (final r) [].
Proof.
  destruct h as [[u sid [s|]] g];
    unfold Channel.close, Channel.subscribe, Channel.unsubscribe, Channel.publish,
      Channel.set_session, Channel.isOpen;
    eff; cbn; repeat split.
Qed.

(** ** Where the signalling goes *)

Lemma mergeConstraints_calls σ (a b : loc) : calls (mergeConstraints a b σ) = [].
Proof.
  destruct (σ !! b) as [B|] eqn:Hb;
    [|rewrite (mergeConstraints_no_source σ a b Hb); reflexivity].
  destruct (σ !! a) as [A|] eqn:Ha.
  - destruct (mandatory A) as [m|] eqn:Hm.
    + rewrite (mergeConstraints_with_mandatory σ a b A B m Ha Hb Hm). reflexivity.
    + rewrite (mergeConstraints_no_target σ a b B Hb) by eauto. reflexivity.
  - rewrite (mergeConstraints_no_target σ a b B Hb) by eauto. reflexivity.
Qed.

Section Footprint.

Import WebRtcHandler.

(** A relation that composes along a method, that ignores the fields other
    than the configuration, the channel and the subscription flag, and that
    [send] and [doHangup], the two methods below [initialize] that talk to
    the channel, obey. *)
Context (R : Heap -> list Event -> Heap -> Prop).
Hypothesis R_frame : forall h h',
  webrtc_config_ (this h') = webrtc_config_ (this h) ->
  p2p_channel_ (this h') = p2p_channel_ (this h) ->
  p2p_subscribed_ (this h') = p2p_subscribed_ (this h) ->
  R h [] h'.
Hypothesis R_trans : forall h evs h' evs' h'',
  R h evs h' -> R h' evs' h'' -> R h (evs ++ evs') h''.
Hypothesis R_host : forall h ev, host_call ev -> R h [ev] h.
Hypothesis R_send : forall v, obeys R (send v).
Hypothesis R_doHangup : obeys R doHangup.

Lemma R_refl h : R h [] h.
Proof. apply R_frame; reflexivity. Qed.

Lemma obeys_ret {A} (a : A) : obeys R (mret a).
Proof. intros h. apply R_refl. Qed.

Lemma obeys_throw {A} (e : JsError) : obeys R (@throw Heap A e).
Proof. intros h. apply R_refl. Qed.

Lemma obeys_emit (ev : Event) : host_call ev -> obeys R (emit ev).
Proof. intros Hev h. apply R_host, Hev. Qed.

Lemma obeys_self : obeys R self.
Proof. intros h. apply R_refl. Qed.

Lemma obeys_not_null {A} (x : option A) : obeys R (not_null x).
Proof. intros h. destruct x; apply R_refl. Qed.

Lemma obeys_reportError (c : Config) (message : string) :
  obeys R (webrtc_reportError c message).
Proof.
  intros h. unfold webrtc_reportError.
  destruct (onError c); apply R_host; exact I.
Qed.

Lemma obeys_bind {A B} (m : Eff Heap A) (k : A -> Eff Heap B) :
  obeys R m -> (forall a, obeys R (k a)) -> obeys R (m ≫= k).
Proof.
  intros Hm Hk h. specialize (Hm h). eff.
  destruct (m h) as [[a|e] s' evs]; cbn in *; [|exact Hm].
  specialize (Hk a s'). destruct (k a s'). cbn in *.
  eapply R_trans; eassumption.
Qed.

Lemma obeys_try_catch {A} (body handler : Eff Heap A) :
  obeys R body -> obeys R handler -> obeys R (try_catch body handler).
Proof.
  intros Hb Hh h. specialize (Hb h). eff.
  destruct (body h) as [[a|e] s' evs]; cbn in *; [exact Hb|].
  specialize (Hh s'). destruct (handler s'). cbn in *.
  eapply R_trans; eassumption.
Qed.

Lemma obeys_when (c : bool) (m : Eff Heap unit) :
  obeys R m -> obeys R (when c m).
Proof. intros Hm. destruct c; [exact Hm | apply obeys_ret]. Qed.

Ltac setter :=
  intros [σ [cfg ch sub conn rvd lvd sdp pcfg pcon off media dc ls]];
  apply R_frame; reflexivity.

Lemma obeys_set_p2p_connection_ v : obeys R (set_p2p_connection_ v).
Proof. setter. Qed.
Lemma obeys_set_local_stream_ v : obeys R (set_local_stream_ v).
Proof. setter. Qed.

Hint Resolve obeys_ret obeys_throw obeys_self obeys_not_null obeys_reportError
  obeys_set_p2p_connection_ obeys_set_local_stream_ : obeys.

Ltac obeys_step :=
  lazymatch goal with
  | |- obeys _ (_ ≫= _) => apply obeys_bind; [|intros ?]
  | |- obeys _ (try_catch _ _) => apply obeys_try_catch
  | |- obeys _ (when _ _) => apply obeys_when
  | |- obeys _ (emit _) => apply obeys_emit; exact I
  | |- obeys _ (match ?x with _ => _ end) => destruct x
  | |- obeys _ _ => solve [auto with obeys nocore]
  end.

Ltac obeys_auto := repeat obeys_step.

(** [doCall] writes to the constraints objects only. *)
Lemma obeys_doCall : obeys R doCall.
Proof.
  intros h. unfold doCall, self. eff.
  pose proof (mergeConstraints_calls (store h) (offer_constraints_ (this h))
                (sdp_constraints_ (this h))) as Hcalls.
  destruct (mergeConstraints _ _ (store h)) as [[r|e] σ' evs];
    cbn in Hcalls; subst evs; cbn; [|apply R_frame; reflexivity].
  destruct (p2p_connection_ (this h)); cbn; [|apply R_frame; reflexivity].
  match goal with
  | |- R _ [?ev] ?h' =>
      apply (R_trans _ [] h' [ev] h');
        [apply R_frame; reflexivity | apply R_host; exact I]
  end.
Qed.

Lemma obeys_hangup : obeys R hangup.
Proof.
  unfold hangup. apply obeys_bind; [apply R_send | intros _; apply R_doHangup].
Qed.

Lemma obeys_setLocalAndSend d : obeys R (setLocalAndSend d).
Proof. unfold setLocalAndSend. obeys_auto; apply R_send. Qed.

Lemma obeys_onIceCandidate c : obeys R (onIceCandidate c).
Proof. unfold onIceCandidate. destruct c; [apply R_send | apply obeys_ret]. Qed.

Lemma obeys_onUserMediaError : obeys R onUserMediaError.
Proof. unfold onUserMediaError. obeys_auto. Qed.

Lemma obeys_onRemoteStreamAdded s : obeys R (onRemoteStreamAdded s).
Proof. unfold onRemoteStreamAdded, attachMediaStream. obeys_auto. Qed.

Lemma obeys_onRemoteStreamRemoved : obeys R onRemoteStreamRemoved.
Proof. unfold onRemoteStreamRemoved, detachMediaStream. obeys_auto. Qed.

Lemma obeys_onUserMediaSuccess b stream : obeys R (onUserMediaSuccess b stream).
Proof.
  unfold onUserMediaSuccess, addLocalStream, attachMediaStream, createP2PConnection.
  obeys_auto; apply obeys_doCall.
Qed.

Lemma obeys_onChannelMessage topic message :
  obeys R (onChannelMessage topic message).
Proof.
  unfold onChannelMessage, onRemoteHangup.
  apply obeys_bind; [apply obeys_self | intros t].
  destruct (JSON_parse message) as [v|]; [|apply obeys_throw].
  destruct v; try apply obeys_throw;
    repeat match goal with
           | |- obeys _ (if ?c then _ else _) => destruct c
           end;
    obeys_auto; apply R_doHangup.
Qed.

(** Every input but a [listen] or a [call] that starts the handler. *)
Lemma react_obeys b i st h :
  (i = Listen \/ i = Call -> st <> INITIALIZED) ->
  exists h',
    WebRTC.handler_of (final (react b i (WebRTC.Usable st h))) = Some h' /\
    R h (calls (react b i (WebRTC.Usable st h))) h'.
Proof.
  intros Hi.
  assert (Hd : forall next m, obeys R m ->
            exists h',
              WebRTC.handler_of (final (WebRTC.delegate next m h)) = Some h' /\
              R h (calls (WebRTC.delegate next m h)) h').
  { intros next m Hm. rewrite delegate_eq. eexists. split; [reflexivity | apply Hm]. }
  destruct i; cbn [react WebRTC.listen WebRTC.call WebRTC.hangup WebRTC.on_handler].
  - rewrite bool_decide_eq_true_2 by auto. eexists. split; [reflexivity | apply R_refl].
  - rewrite bool_decide_eq_true_2 by auto. eexists. split; [reflexivity | apply R_refl].
  - case_bool_decide; [eexists; split; [reflexivity | apply R_refl]|].
    apply Hd, obeys_hangup.
  - apply Hd, obeys_onChannelMessage.
  - apply Hd, obeys_onUserMediaSuccess.
  - apply Hd, obeys_onUserMediaError.
  - apply Hd, obeys_setLocalAndSend.
  - apply Hd, obeys_onIceCandidate.
  - apply Hd, obeys_onRemoteStreamAdded.
  - apply Hd, obeys_onRemoteStreamRemoved.
Qed.

End Footprint.

Section Confinement.

Import WebRtcHandler.

Context (config : Config).

Lemma confined_frame h h' :
  webrtc_config_ (this h') = webrtc_config_ (this h) ->
  p2p_channel_ (this h') = p2p_channel_ (this h) ->
  p2p_subscribed_ (this h') = p2p_subscribed_ (this h) ->
  stays_confined config h [] h'.
Proof.
  intros Hcfg Hch _ [H1 H2]. split; [|constructor].
  split; congruence.
Qed.

Lemma confined_trans h evs h' evs' h'' :
  stays_confined config h evs h' -> stays_confined config h' evs' h'' ->
  stays_confined config h (evs ++ evs') h''.
Proof.
  intros H1 H2 H. destruct (H1 H) as [H' Hevs]. destruct (H2 H') as [H'' Hevs'].
  split; [exact H'' | apply Forall_app; split; assumption].
Qed.

Lemma confined_host h ev : host_call ev -> stays_confined config h [ev] h.
Proof.
  intros Hev H. split; [exact H|]. repeat constructor.
  destruct ev; try exact I; contradiction.
Qed.

(** The methods that talk to the channel read the channel and the topic
    from the handler. *)
Ltac direct :=
  intros [σ [cfg ch sub conn rvd lvd sdp pcfg pcon off media dc ls]] [Hcfg Hch];
  cbn in Hcfg, Hch; subst cfg ch.

Lemma confined_send v : obeys (stays_confined config) (send v).
Proof.
  direct. unfold send, self, configured. eff. cbn.
  destruct (p2p_channel config); cbn;
    (split; [split; reflexivity | repeat constructor]).
Qed.

Lemma confined_doHangup : obeys (stays_confined config) doHangup.
Proof.
  direct.
  unfold doHangup, removeLocalStream, detachMediaStream, self,
    set_p2p_connection_, set_p2p_subscribed_, configured.
  eff. cbn.
  destruct conn, sub, (p2p_channel config), ls, lvd, (onTerminated config); cbn;
    (split; [split; reflexivity | repeat constructor]).
Qed.

Lemma confined_listen_call b :
  obeys (stays_confined config) (listen b) /\
  obeys (stays_confined config) (call b).
Proof.
  split; direct;
    unfold listen, call, initialize, self, set_do_call_,
      set_remote_video_display_, set_local_video_display_,
      set_p2p_subscribed_, configured;
    eff; cbn;
    destruct (local_video_display config), (p2p_channel config),
      (getUserMedia_throws b), (onError config); cbn;
      (split; [split; reflexivity | repeat constructor]).
Qed.

Lemma react_confined b i w :
  lifted (configured config) w ->
  lifted (configured config) (final (react b i w)) /\
  Forall (confined (p2p_channel config) (p2p_topic config)) (calls (react b i w)).
Proof.
  intros Hw.
  destruct w as [|st h];
    [rewrite react_unusable; split; [exact I | constructor]|].
  assert (Hgen : (i = Listen \/ i = Call -> st <> INITIALIZED) ->
            lifted (configured config) (final (react b i (WebRTC.Usable st h))) /\
            Forall (confined (p2p_channel config) (p2p_topic config))
                   (calls (react b i (WebRTC.Usable st h)))).
  { intros Hi.
    destruct (react_obeys (stays_confined config) confined_frame confined_trans
                confined_host confined_send confined_doHangup b i st h Hi)
      as (h' & Hh' & HR).
    destruct (HR Hw) as [HP HQ]. split; [|exact HQ].
    destruct (final (react b i (WebRTC.Usable st h))); [exact I|].
    cbn in Hh'. injection Hh' as ->. exact HP. }
  destruct (confined_listen_call b) as [Hl Hc].
  destruct i; try (apply Hgen; intros [?|?]; discriminate);
    (destruct st; [|apply Hgen; intros _; discriminate..]).
  - cbn [react]. rewrite listen_INITIALIZED, delegate_eq. exact (Hl h Hw).
  - cbn [react]. rewrite call_INITIALIZED, delegate_eq. exact (Hc h Hw).
Qed.

Lemma run_confined history w :
  lifted (configured config) w ->
  Forall (confined (p2p_channel config) (p2p_topic config)) (run history w).2.
Proof.
  revert w. induction history as [|[b i] rest IH]; intros w Hw; [constructor|].
  cbn [run]. destruct (react_confined b i w Hw) as [H1 H2].
  destruct (react b i w) as [c w1 evs]. cbn in H1, H2.
  specialize (IH w1 H1). destruct (run rest w1). cbn in *.
  apply Forall_app. split; assumption.
Qed.

Lemma new_configured : lifted (configured config) (final (WebRTC.new config)).
Proof.
  unfold WebRTC.new.
  repeat (case_bool_decide || destruct (_ || _)); cbn;
    try (unfold webrtc_reportError; destruct (onError config); exact I).
  all: split; reflexivity.
Qed.

Lemma new_host_calls : Forall host_call (calls (WebRTC.new config)).
Proof.
  unfold WebRTC.new.
  repeat (case_bool_decide || destruct (_ || _)); cbn;
    try (unfold webrtc_reportError; destruct (onError config); repeat constructor).
  all: constructor.
Qed.

End Confinement.

(** X14. In the whole life of an instance, from its construction on, every
    subscribe, unsubscribe and publish goes to the channel of its
    configuration, with the topic of its configuration: the handler never
    talks to another channel or on another topic. *)
Theorem signalling_stays_on_the_configured_topic
    (config : Config) (history : list (Browser * Input)) (ev : Event) :
  In ev (calls (WebRTC.new config)
         ++ (run history (final (WebRTC.new config))).2) ->
  confined (p2p_channel config) (p2p_topic config) ev.
Proof.
  intros Hin. apply in_app_or in Hin.
  pose proof (new_host_calls config) as Hnew.
  pose proof (run_confined config history _ (new_configured config)) as Hrun.
  rewrite Forall_forall in Hnew, Hrun.
  destruct Hin as [Hin|Hin].
  - apply list_elem_of_In, Hnew in Hin. destruct ev; try exact I; contradiction.
  - apply Hrun, list_elem_of_In, Hin.
Qed.

Lemma signalling_stays_on_the_configured_topic_witness :
  confined (p2p_channel demo_config) (p2p_topic demo_config)
    (Publish 7 (Some "event:call") bye_text).
Proof.
  apply (signalling_stays_on_the_configured_topic demo_config
           [(demo_browser, Listen); (demo_browser, Hangup)]).
  vm_compute. auto 10.
Defined.

(** ** One subscription in a life *)

Section Balance.

Import WebRtcHandler.

Lemma balance_frame h h' :
  webrtc_config_ (this h') = webrtc_config_ (this h) ->
  p2p_channel_ (this h') = p2p_channel_ (this h) ->
  p2p_subscribed_ (this h') = p2p_subscribed_ (this h) ->
  subscription_balance h [] h'.
Proof. intros _ Hch Hsub _. rewrite Hsub. repeat split; assumption. Qed.

Lemma balance_trans h evs h' evs' h'' :
  subscription_balance h evs h' -> subscription_balance h' evs' h'' ->
  subscription_balance h (evs ++ evs') h''.
Proof.
  intros H1 H2 H. destruct (H1 H) as (Hch & Hs & Hu).
  destruct H2 as (Hch' & Hs' & Hu'); [rewrite Hch; exact H|].
  rewrite !count_app. split; [congruence|]. split; lia.
Qed.

Lemma balance_host h ev : host_call ev -> subscription_balance h [ev] h.
Proof.
  intros Hev _. split; [reflexivity|].
  destruct ev; try contradiction; split; reflexivity.
Qed.

Lemma balance_send v : obeys subscription_balance (send v).
Proof.
  intros [σ [cfg ch sub conn rvd lvd sdp pcfg pcon off media dc ls]] [c Hc].
  cbn in Hc. subst ch. unfold send, self. eff. cbn.
  repeat split.
Qed.

Lemma balance_doHangup : obeys subscription_balance doHangup.
Proof.
  intros [σ [cfg ch sub conn rvd lvd sdp pcfg pcon off media dc ls]] [c Hc].
  cbn in Hc. subst ch.
  unfold doHangup, removeLocalStream, detachMediaStream, self,
    set_p2p_connection_, set_p2p_subscribed_.
  eff. cbn.
  destruct conn, sub, ls, lvd, (onTerminated cfg); cbn; repeat split.
Qed.

(** [listen] and [call] of the handler subscribe once. *)
Lemma initialize_subscribes b h :
  is_Some (p2p_channel_ (this h)) ->
  (count is_subscribe (calls (listen b h)) = 1 /\
   count is_unsubscribe (calls (listen b h)) = 0 /\
   p2p_subscribed_ (this (final (listen b h))) = true) /\
  (count is_subscribe (calls (call b h)) = 1 /\
   count is_unsubscribe (calls (call b h)) = 0 /\
   p2p_subscribed_ (this (final (call b h))) = true).
Proof.
  destruct h as [σ [cfg ch sub conn rvd lvd sdp pcfg pcon off media dc ls]].
  intros [c Hc]. cbn in Hc. subst ch.
  unfold listen, call, initialize, self, set_do_call_,
    set_remote_video_display_, set_local_video_display_, set_p2p_subscribed_.
  eff. cbn.
  destruct (local_video_display cfg), (getUserMedia_throws b), (onError cfg);
    cbn; repeat split.
Qed.

End Balance.

Lemma react_in_step b i w :
  in_step w ->
  let r := react b i w in
  in_step (final r) /\
  count is_subscribe (calls r) + not_started (final r) = not_started w /\
  count is_unsubscribe (calls r) + Nat.b2n (subscribed (final r))
    = Nat.b2n (subscribed w) + count is_subscribe (calls r).
Proof.
  intros [Hwf Hsub] r.
  pose proof (react_lifted handler_ok handler_ok_frame handler_ok_doCall b i w Hwf)
    as Hwf'.
  pose proof (react_refines_transition b i w) as Hst.
  fold r in Hwf', Hst. fold (well_formed (final r)) in Hwf'.
  destruct w as [|st h].
  { subst r. rewrite react_unusable in *. cbn.
    split; [split; [exact I | reflexivity] | split; reflexivity]. }
  pose proof Hwf as (Hch & _).
  assert (Hgen : (i = Listen \/ i = Call -> st <> INITIALIZED) ->
            (i = Hangup -> st <> CALLING) ->
            in_step (final r) /\
            count is_subscribe (calls r) + not_started (final r)
              = not_started (WebRTC.Usable st h) /\
            count is_unsubscribe (calls r) + Nat.b2n (subscribed (final r))
              = Nat.b2n (subscribed (WebRTC.Usable st h))
                + count is_subscribe (calls r)).
  { intros Hi Hh.
    destruct (react_obeys subscription_balance balance_frame balance_trans
                balance_host balance_send balance_doHangup b i st h Hi)
      as (h' & Hh' & HR).
    fold r in Hh', HR. destruct (HR Hch) as (_ & Hs & Hu).
    assert (Hsame : WebRTC.state_of (final r) = Some st).
    { rewrite Hst. destruct i, st; try reflexivity;
        solve [exfalso; apply Hi; auto | exfalso; apply Hh; auto]. }
    destruct (final r) as [|st' h'']; [discriminate|].
    cbn in Hh', Hsame. injection Hh' as ->. injection Hsame as ->.
    unfold not_started. cbn [subscribed WebRTC.state_of] in *.
    split; [split; [exact Hwf'|] | split; lia].
    intros Hns. specialize (Hsub Hns). rewrite Hsub in Hu.
    cbn [subscribed].
    destruct (WebRtcHandler.p2p_subscribed_ (WebRtcHandler.this h'));
      [cbn in Hu; lia | reflexivity]. }
  destruct (initialize_subscribes b h Hch) as [(Ls & Lu & Lf) (Cs & Cu & Cf)].
  destruct i; try (apply Hgen; [intros [?|?]; discriminate | discriminate]).
  - destruct st; [|apply Hgen; [intros _; discriminate | discriminate]..].
    subst r. cbn [react] in *. rewrite listen_INITIALIZED, delegate_eq in *.
    cbn [final calls subscribed not_started WebRTC.state_of] in *.
    rewrite Ls, Lu, Lf, Hsub by discriminate.
    split; [split; [exact Hwf' | intros []; reflexivity] | split; reflexivity].
  - destruct st; [|apply Hgen; [intros _; discriminate | discriminate]..].
    subst r. cbn [react] in *. rewrite call_INITIALIZED, delegate_eq in *.
    cbn [final calls subscribed not_started WebRTC.state_of] in *.
    rewrite Cs, Cu, Cf, Hsub by discriminate.
    split; [split; [exact Hwf' | intros []; reflexivity] | split; reflexivity].
  - destruct st;
      [apply Hgen; [intros [?|?]; discriminate | discriminate] |
      |apply Hgen; [intros [?|?]; discriminate | discriminate]].
    destruct (react_obeys subscription_balance balance_frame balance_trans
                balance_host balance_send balance_doHangup b Hangup CALLING h)
      as (h' & Hh' & HR); [intros [?|?]; discriminate|].
    fold r in Hh', HR. destruct (HR Hch) as (_ & Hs & Hu).
    assert (Hoff : subscribed (final r) = false).
    { subst r. cbn [react]. rewrite hangup_CALLING, delegate_eq.
      destruct Hch as [ch Hch]. rewrite (handler_hangup_eq h ch Hch).
      cbn [final subscribed].
      apply (doHangup_effects h). eauto. }
    destruct (final r) as [|st' h'']; [discriminate|].
    cbn in Hh', Hst. injection Hh' as ->. injection Hst as ->.
    unfold not_started. cbn [subscribed WebRTC.state_of] in *.
    split; [split; [exact Hwf' | intros _; exact Hoff] | split; lia].
Qed.

Lemma run_in_step history w :
  in_step w ->
  in_step (run history w).1 /\
  count is_subscribe (run history w).2 + not_started (run history w).1 = not_started w /\
  count is_unsubscribe (run history w).2 + Nat.b2n (subscribed (run history w).1)
    = Nat.b2n (subscribed w) + count is_subscribe (run history w).2.
Proof.
  revert w. induction history as [|[b i] rest IH]; intros w Hw.
  { cbn. split; [exact Hw | split; lia]. }
  destruct (react_in_step b i w Hw) as (H1 & Hs & Hu).
  cbn [run]. destruct (react b i w) as [c w1 evs]. cbn [final calls] in *.
  destruct (IH w1 H1) as (H1' & Hs' & Hu').
  destruct (run rest w1) as [w' later]. cbn [fst snd] in *.
  rewrite !count_app. split; [exact H1' | split; lia].
Qed.

Lemma new_in_step config : in_step (final (WebRTC.new config)).
Proof.
  split; [apply new_well_formed|]. intros _.
  unfold WebRTC.new.
  repeat (case_bool_decide || destruct (_ || _)); cbn;
    try (unfold webrtc_reportError; destruct (onError config); reflexivity).
  all: reflexivity.
Qed.

(** X15. Over the whole life of an instance, whatever is called on it and
    whatever the browser and the peer deliver, it subscribes to the channel
    exactly once when it leaves INITIALIZED and never otherwise; it
    unsubscribes at most once, and only after it subscribed; at every
    moment it is subscribed exactly when it has subscribed and not yet
    unsubscribed, and then its state is CALLING. *)
Theorem one_subscription_per_instance
    (config : Config) (history : list (Browser * Input)) :
  let w := (run history (final (WebRTC.new config))).1 in
  let trace := calls (WebRTC.new config)
               ++ (run history (final (WebRTC.new config))).2 in
  count is_subscribe trace =
    match WebRTC.state_of w with
    | Some CALLING | Some TERMINATED => 1
    | _ => 0
    end /\
  count is_unsubscribe trace + Nat.b2n (subscribed w) = count is_subscribe trace /\
  (subscribed w = true -> WebRTC.state_of w = Some CALLING).
Proof.
  intros w trace.
  destruct (run_in_step history _ (new_in_step config)) as ((_ & Hoff) & Hs & Hu).
  pose proof (run_monotone history (final (WebRTC.new config))) as Hmono.
  assert (Hnew : count is_subscribe (calls (WebRTC.new config)) = 0 /\
                 count is_unsubscribe (calls (WebRTC.new config)) = 0).
  { pose proof (new_host_calls config) as H.
    induction H as [|ev evs Hev _ [IH1 IH2]]; [split; reflexivity|].
    unfold count in *. cbn [List.filter].
    destruct ev; try contradiction; cbn; auto. }
  destruct Hnew as [Hn1 Hn2].
  assert (H0 : final (WebRTC.new config) = WebRTC.Unusable \/
               exists h, final (WebRTC.new config) = WebRTC.Usable INITIALIZED h).
  { unfold WebRTC.new.
    repeat (case_bool_decide || destruct (_ || _)); cbn;
      try (unfold webrtc_reportError; destruct (onError config); cbn);
      eauto. }
  subst w trace. rewrite !count_app, Hn1, Hn2. cbn [Nat.add].
  destruct H0 as [H0|[h0 H0]]; rewrite H0 in *.
  - rewrite run_unusable in *. cbn.
    split; [reflexivity | split; [reflexivity | discriminate]].
  - unfold not_started in Hs. cbn [WebRTC.state_of subscribed] in Hs, Hu, Hmono.
    assert (Hfalse : WebRtcHandler.p2p_subscribed_ (WebRtcHandler.this h0) = false).
    { revert H0. unfold WebRTC.new.
      repeat (case_bool_decide || destruct (_ || _)); cbn;
        try (unfold webrtc_reportError; destruct (onError config); cbn);
        try discriminate.
      all: intros [= <-]; reflexivity. }
    rewrite Hfalse in Hu. cbn [Nat.b2n] in Hu.
    destruct (WebRTC.state_of (run history (WebRTC.Usable INITIALIZED h0)).1)
      as [[]|] eqn:E; cbn in Hmono; try lia.
    + split; [lia | split; [lia|]]. intros Hon.
      rewrite Hoff in Hon by discriminate. discriminate.
    + split; [lia | split; [lia | reflexivity]].
    + split; [lia | split; [lia|]]. intros Hon.
      rewrite Hoff in Hon by discriminate. discriminate.
Qed.

(** ** ICE candidates *)

Lemma run_configured config history w :
  lifted (configured config) w -> lifted (configured config) (run history w).1.
Proof.
  revert w. induction history as [|[b i] rest IH]; intros w Hw; [exact Hw|].
  rewrite run_cons. apply IH, react_confined, Hw.
Qed.

Lemma new_valid config :
  valid_config config ->
  final (WebRTC.new config) = WebRTC.Usable INITIALIZED (WebRtcHandler.new config).
Proof.
  intros (Hice & [ch Hch] & topic & Htopic & Hne). unfold WebRTC.new.
  rewrite (bool_decide_eq_false_2 (ice_servers config = [])) by exact Hice.
  rewrite (bool_decide_eq_false_2 (p2p_channel config = None)) by congruence.
  rewrite (bool_decide_eq_false_2 (p2p_topic config = None)) by congruence.
  rewrite (bool_decide_eq_false_2 (p2p_topic config = Some EmptyString))
    by congruence.
  reflexivity.
Qed.

(** X16. On an instance built from a valid configuration, in every state and
    whether or not it is still subscribed (so also after hangup), an ICE
    candidate event that carries a candidate publishes one message on the
    configured channel and topic: the object with type candidate and the
    label, id and candidate of the event.  The event that ends the
    gathering, with no candidate, publishes nothing.  Neither changes the
    instance, and neither throws. *)
Theorem ice_candidates_are_published
    (config : Config) (history : list (Browser * Input))
    (b : Browser) (c : WebRtcHandler.RTCIceCandidate) :
  valid_config config ->
  let w := (run history (final (WebRTC.new config))).1 in
  exists ch,
    p2p_channel config = Some ch /\
    react b (IceCandidate (Some c)) w =
      mkResult (Normal tt) w
        [Publish ch (p2p_topic config)
           (JSON_stringify
              (JObject [(codes "type", JString (codes "candidate"));
                        (codes "label", WebRtcHandler.sdpMLineIndex c);
                        (codes "id", WebRtcHandler.sdpMid c);
                        (codes "candidate", WebRtcHandler.candidate c)]))] /\
    react b (IceCandidate None) w = mkResult (Normal tt) w [].
Proof.
  intros Hvalid w.
  pose proof Hvalid as (_ & [ch Hch] & _).
  pose proof (run_configured config history _ (new_configured config)) as Hcfg.
  pose proof (run_monotone history (final (WebRTC.new config))) as Hmono.
  fold w in Hcfg, Hmono. rewrite (new_valid config Hvalid) in Hmono.
  exists ch. split; [exact Hch|].
  destruct w as [|st [σ [cfg c0 sub conn rvd lvd sdp pcfg pcon off media dc ls]]];
    [cbn in Hmono; lia|].
  destruct Hcfg as [Hc1 Hc2]. cbn in Hc1, Hc2. subst cfg c0.
  cbn [react WebRTC.on_handler]. rewrite !delegate_eq.
  unfold WebRtcHandler.onIceCandidate, WebRtcHandler.send, WebRtcHandler.self.
  eff. rewrite Hch. split; reflexivity.
Qed.

Lemma ice_candidates_are_published_witness :
  let w := (run [(demo_browser, Call); (demo_browser, Hangup)]
                (final (WebRTC.new demo_config))).1 in
  let c := WebRtcHandler.mkCandidate (JNumber (codes "0")) (JString (codes "audio"))
             (JString (codes "candidate:1")) in
  valid_config demo_config /\
  subscribed w = false /\
  count is_publish (calls (react demo_browser (IceCandidate (Some c)) w)) = 1.
Proof.
  intros w c.
  assert (Hvalid : valid_config demo_config).
  { split; [discriminate|]. split; [eauto|].
    eexists. split; [reflexivity | discriminate]. }
  split; [exact Hvalid|]. split; [reflexivity|].
  destruct (ice_candidates_are_published demo_config
              [(demo_browser, Call); (demo_browser, Hangup)] demo_browser c Hvalid)
    as (ch & _ & Hpub & _).
  fold w in Hpub. rewrite Hpub. reflexivity.
Defined.
